(** * Pair selection and score updates of value-hierarchy

    A shallow embedding of the [pairs] and [update-scores] commands of
    [src/index.ts], followed by the properties stated about them.

    Conventions of the embedding.
    - A JavaScript string is the list of its UTF-16 code units.
    - [score] and [comparisonCount] are JavaScript numbers, that is
      doubles; the embedding holds their integer values. [adjust] adds
      and subtracts them exactly, which is what the program does as long
      as the values stay within 2^53 in magnitude; [adjust_numbers] is the
      same code with the rounding of doubles, and the properties that
      depend on exact sums are stated for the range where the two agree.
      [NaN], infinities and fractional cells of a hand-edited file are
      outside the model.
    - [readValues] allocates one object per CSV row. The objects live in a
      heap (a list, in file order) and arrays hold references (positions
      in the heap), so that two rows with the same contents are still two
      records and a record reached through two variables is one record.
    - [Math.random()] is the k-th draw of a random source; a draw is a
      rational number in [0, 1). *)

From Stdlib Require Import Ascii String QArith Qround.
From Stdlib Require PrimFloat FloatOps SpecFloat Uint63.
From stdpp Require Import base numbers list sorting gmap.

Local Open Scope Z_scope.

(** ** JavaScript strings *)

Abbreviation jsstring := (list N).

(** Code units of an ASCII literal, for readable examples. *)
Definition js (s : string) : jsstring :=
  map N_of_ascii (list_ascii_of_string s).

(** ** The data model: [interface Value] *)

Record Value := mkValue {
  id : jsstring;
  title : jsstring;
  score : Z;
  comparisonCount : Z;
  tags : jsstring;
  createdAt : jsstring;
  updatedAt : jsstring;
  rationale : jsstring
}.

#[global] Instance Value_inhabited : Inhabited Value :=
  populate (mkValue [] [] 0 0 [] [] [] []).

#[global] Instance Value_eq_dec : EqDecision Value.
Proof. solve_decision. Defined.

(** A reference to a record object: its position in the heap that
    [readValues] filled, i.e. its row number in the file. *)
Abbreviation ref := nat (only parsing).

(** ** The random source

    [Math.random()] returns a number that is at least 0 and less than 1. *)

Record Draw := mkDraw {
  draw : Q;
  draw_range : (0 <= draw)%Q ∧ (draw < 1)%Q
}.

(** ** Array operations used by the [pairs] command *)

Section JsArray.
Context {A : Type}.

(** [arr.sort((a, b) => key(a) - key(b))]. The specification of
    [Array.prototype.sort] requires a stable sort, and the result of a
    stable sort does not depend on the algorithm; insertion from the
    right is the simplest one. *)
Section Sort.
Variable key : A → Z.

Fixpoint insert_by (x : A) (l : list A) : list A :=
  match l with
  | [] => [x]
  | y :: l' =>
      if bool_decide (key x - key y ≤ 0) then x :: y :: l'
      else y :: insert_by x l'
  end.

Definition sort_by (l : list A) : list A := foldr insert_by [] l.

(** The order the sort produces: ascending by key, and by [before]
    among entries of equal key. *)
Definition key_then (before : relation A) : relation A :=
  λ x y, key x < key y ∨ (key x = key y ∧ before x y).
End Sort.

(** [arr.slice(0, e)]: a negative end counts from the back, an end
    beyond the length is clamped. *)
Definition slice0 (l : list A) (e : Z) : list A :=
  if bool_decide (e < 0)
  then take (Z.to_nat (Z.max (Z.of_nat (length l) + e) 0)) l
  else take (Z.to_nat (Z.min e (Z.of_nat (length l)))) l.

(** [[a[i], a[j]] = [a[j], a[i]]]: the right-hand side is read first,
    then [a[i]] and [a[j]] are written in this order. The shuffle only
    swaps at indices within the array ([swap_random_index]); the
    other branch, where JavaScript would store [undefined], is never
    taken. *)
Definition swap (a : list A) (i j : nat) : list A :=
  match a !! j, a !! i with
  | Some aj, Some ai => <[j:=ai]> (<[i:=aj]> a)
  | _, _ => a
  end.

(** [Math.floor(Math.random() * (i + 1))] for the draw [r]. *)
Definition random_index (r : Draw) (i : nat) : nat :=
  Z.to_nat (Qfloor (draw r * inject_Z (Z.of_nat i + 1))%Q).

(** The shuffle loop
    [for (let i = a.length - 1; i > 0; i--) { j = ...; swap }],
    entered at index [i] with [k] draws already consumed. *)
Fixpoint shuffle_from (rnd : nat → Draw) (k : nat) (i : nat) (a : list A)
  : list A :=
  match i with
  | O => a
  | S i' => shuffle_from rnd (S k) i' (swap a i (random_index (rnd k) i))
  end.

Definition shuffle (rnd : nat → Draw) (a : list A) : list A :=
  shuffle_from rnd 0 (length a - 1)%nat a.

(** The emission loop
    [for (let i = 0; i < bound; i += 2) pairs.push([c[i], c[i + 1]])],
    entered at index [i]. One unit of fuel is spent per iteration; the
    loop makes fewer iterations than the array has entries, so
    [length c] units are never used up (see [pair_loop_length]). *)
Fixpoint pair_loop (fuel : nat) (bound : Z) (c : list A) (i : nat)
  : list (A * A) :=
  match fuel with
  | O => []
  | S fuel' =>
      if bool_decide (Z.of_nat i < bound) then
        match c !! i, c !! (i + 1)%nat with
        | Some x, Some y => (x, y) :: pair_loop fuel' bound c (i + 2)%nat
        | _, _ => []   (* not reached: [bound] is below the last index *)
        end
      else []
  end.

Definition emit_pairs (num : Z) (c : list A) : list (A * A) :=
  pair_loop (length c) (Z.min (num * 2) (Z.of_nat (length c) - 1)) c 0.

(** Every entry of an array of pairs, left to right. *)
Definition paired (pairs : list (A * A)) : list A :=
  concat ((λ p, [p.1; p.2]) <$> pairs).
End JsArray.

(** ** Running a command

    A command either ends in [process.exit(1)] after printing an error,
    or runs to its end. The file on disk is part of what it leaves. *)

Inductive Failure :=
  | InsufficientRecords                       (* "Need at least 2 values" *)
  | MissingResponses                          (* "--responses is required" *)
  | MalformedOutcome (resp : jsstring)        (* "Invalid response format" *)
  | UnknownValue (winner loser : jsstring)    (* "Value not found" *)
  | UncaughtTypeError.                        (* property read on undefined *)

Record Exit (A : Type) := mkExit {
  outcome : Failure + A;
  disk_after : list Value
}.
Arguments mkExit {A} _ _.
Arguments outcome {A} _.
Arguments disk_after {A} _.

(** [readValues]: one fresh object per row, and the array of them; a file
    that does not exist yet has no row. *)
Definition readValues (disk : list Value) : list Value * list ref :=
  (disk, seq 0 (length disk)).

(** [writeValues]: the objects of the array, in array order. (For an
    empty array the csv writer leaves a header and a blank line, which
    [readValues] returns as one blank record; the properties that end in a
    write are stated for arrays that are not empty.) *)
Definition writeValues (heap : list Value) (values : list ref) : list Value :=
  (λ r, heap !!! r) <$> values.

(** ** The [pairs] command *)

Section Pairs.
Variable heap : list Value.

Definition count_of (r : ref) : Z := comparisonCount (heap !!! r).

(** [values[0].comparisonCount] of the sorted array. *)
Definition minCount (values : list ref) : option Z :=
  count_of <$> head values.

(** Lines 326-336: the array [candidates], before the shuffle, from the
    sorted array [values]. [None] is the [TypeError] of [values[0]] on
    an empty array, which the length guard of the command excludes. *)
Definition select_candidates (values : list ref) (num : Z)
  : option (list ref) :=
  m ← minCount values;
  Some (if bool_decide (m >= 3) then values
        else
          let candidates := filter (λ v, count_of v = m) values in
          if bool_decide (Z.of_nat (length candidates) < num * 2)
          then slice0 values (Z.min (Z.of_nat (length values)) (num * 2))
          else candidates).
End Pairs.

(** The least [comparisonCount] over all records, as the specification
    words it (the program reads it off the sorted array instead). *)
Definition minimum_count (records : list Value) : option Z :=
  match records with
  | [] => None
  | v :: vs =>
      Some (foldr (λ x m, Z.min (comparisonCount x) m) (comparisonCount v) vs)
  end.

(** The ordering the specification gives for the extended pool:
    ascending by [comparisonCount], ties broken by original order. A
    reference is a row number, so the original order is [<]. *)
Definition lowest_first (heap : list Value) : relation ref :=
  key_then (count_of heap) lt.

(** The least-compared cohort, in original order. *)
Definition cohort (heap : list Value) (m : Z) : list ref :=
  filter (λ r, count_of heap r = m) (seq 0 (length heap)).

(** What the [pairs] command holds in memory when it returns. *)
Record PairsRun := mkPairsRun {
  run_heap : list Value;          (* the record objects *)
  run_values : list ref;          (* the array [values] *)
  run_pool : list ref;            (* [candidates] before the shuffle *)
  run_candidates : list ref;      (* [candidates] after the shuffle *)
  run_pairs : list (ref * ref)    (* the array [pairs], as printed *)
}.

(** The action of [pairs <file>], from [readValues] on. When
    [minCount >= 3] the variables [candidates] and [values] name the same
    array, so the shuffle reorders [values] too; otherwise [candidates] is
    a fresh array made by [filter] or [slice]. *)
Definition pairs_action (disk : list Value) (num : Z) (rnd : nat → Draw)
  : Exit PairsRun :=
  let '(heap, values) := readValues disk in
  if bool_decide (length values < 2)%nat
  then mkExit (inl InsufficientRecords) disk
  else
    let values := sort_by (count_of heap) values in
    match minCount heap values, select_candidates heap values num with
    | Some m, Some pool =>
        let candidates := shuffle rnd pool in
        let values := if bool_decide (m >= 3) then candidates else values in
        mkExit (inr (mkPairsRun heap values pool candidates
                       (emit_pairs num candidates))) disk
    | _, _ => mkExit (inl UncaughtTypeError) disk
    end.

(** ** String operations used by the [update-scores] command *)

(** [s.split(sep)] for a separator of one code unit: always at least one
    piece; the pieces are the stretches between separators. *)
Fixpoint split (sep : N) (s : jsstring) : list jsstring :=
  match s with
  | [] => [[]]
  | c :: s' =>
      if bool_decide (c = sep) then [] :: split sep s'
      else match split sep s' with
           | piece :: pieces => (c :: piece) :: pieces
           | [] => [[c]]
           end
  end.

(** The code units that [String.prototype.trim] removes: ECMAScript's
    WhiteSpace and LineTerminator. *)
Definition is_white_space (c : N) : bool :=
  (bool_decide (9 ≤ c ≤ 13) || bool_decide (c = 32) || bool_decide (c = 160)
   || bool_decide (c = 5760) || bool_decide (8192 ≤ c ≤ 8202)
   || bool_decide (c = 8232) || bool_decide (c = 8233)
   || bool_decide (c = 8239) || bool_decide (c = 8287)
   || bool_decide (c = 12288) || bool_decide (c = 65279))%N.

Fixpoint trim_start (s : jsstring) : jsstring :=
  match s with
  | c :: s' => if is_white_space c then trim_start s' else s
  | [] => []
  end.

Definition trim (s : jsstring) : jsstring :=
  reverse (trim_start (reverse (trim_start s))).

Definition comma : N := 44.
Definition greater_than : N := 62.

(** ** The [update-scores] command *)

(** Assignments to the three fields the command writes. *)
Definition set_score (s : Z) (v : Value) : Value :=
  mkValue (id v) (title v) s (comparisonCount v) (tags v)
          (createdAt v) (updatedAt v) (rationale v).
Definition set_comparisonCount (c : Z) (v : Value) : Value :=
  mkValue (id v) (title v) (score v) c (tags v)
          (createdAt v) (updatedAt v) (rationale v).
Definition set_updatedAt (t : jsstring) (v : Value) : Value :=
  mkValue (id v) (title v) (score v) (comparisonCount v) (tags v)
          (createdAt v) t (rationale v).

Section UpdateScores.
(** [now] is [new Date().toISOString()], taken once before the loop;
    [values] is the array that [readValues] returned. *)
Variable now : jsstring.
Variable values : list ref.

(** [values.find(v => v.title === t)]: the first object of the array
    whose title is [t], or [undefined]. *)
Definition find_title (heap : list Value) (t : jsstring) : option ref :=
  snd <$> list_find (λ r, title (heap !!! r) = t) values.

(** Lines 367-377: destructure [resp.split('>')], reject a missing or
    empty side, look both titles up, reject a failed lookup. *)
Definition resolve (heap : list Value) (resp : jsstring)
  : Failure + (ref * ref) :=
  let parts := split greater_than resp in
  match parts !! 0%nat, parts !! 1%nat with
  | Some winner, Some loser =>
      if bool_decide (winner = [] ∨ loser = [])
      then inl (MalformedOutcome resp)
      else
        match find_title heap (trim winner), find_title heap (trim loser) with
        | Some winValue, Some loseValue => inr (winValue, loseValue)
        | _, _ => inl (UnknownValue winner loser)
        end
  | _, _ => inl (MalformedOutcome resp)
  end.

(** Lines 379-384, one heap write per statement, in source order. *)
Definition adjust (winValue loseValue : ref) (heap : list Value)
  : list Value :=
  let heap := alter (λ v, set_score (score v + 10) v) winValue heap in
  let heap := alter (λ v, set_score (score v - 10) v) loseValue heap in
  let heap :=
    alter (λ v, set_comparisonCount (comparisonCount v + 1) v) winValue heap in
  let heap :=
    alter (λ v, set_comparisonCount (comparisonCount v + 1) v) loseValue heap in
  let heap := alter (set_updatedAt now) winValue heap in
  alter (set_updatedAt now) loseValue heap.

(** The body of the [forEach] callback. *)
Definition apply_response (heap : list Value) (resp : jsstring)
  : Failure + list Value :=
  match resolve heap resp with
  | inl failure => inl failure
  | inr (winValue, loseValue) => inr (adjust winValue loseValue heap)
  end.

(** [responses.forEach(...)]: [process.exit(1)] inside the callback
    ends the process, so later responses are not visited. *)
Fixpoint apply_responses (heap : list Value) (responses : list jsstring)
  : Failure + list Value :=
  match responses with
  | [] => inr heap
  | resp :: rest =>
      match apply_response heap resp with
      | inl failure => inl failure
      | inr heap' => apply_responses heap' rest
      end
  end.
End UpdateScores.

(** The action of [update-scores <file>], from the [--responses] check
    on. [responses] is [None] when the option was not given. The file is
    written only after the loop has visited every response. *)
Definition update_scores (disk : list Value) (responses : option jsstring)
    (now : jsstring) : Exit (list Value) :=
  match responses with
  | None | Some [] => mkExit (inl MissingResponses) disk
  | Some text =>
      let '(heap, values) := readValues disk in
      match apply_responses now values heap (split comma text) with
      | inl failure => mkExit (inl failure) disk
      | inr heap' => mkExit (inr heap') (writeValues heap' values)
      end
  end.

(** ** Scores and counts as doubles

    The sum of two doubles whose values are integers is the exact sum
    rounded to the nearest double, ties to the even significand. Every
    integer of magnitude up to 2^53 is a double; beyond, the doubles are
    the multiples of [ulp]. (Sums beyond the largest finite double are not
    modelled.) *)
Definition round_double (z : Z) : Z :=
  if bool_decide (Z.abs z ≤ 2 ^ 53) then z
  else
    let ulp := 2 ^ (Z.log2 (Z.abs z) - 52) in
    let q := Z.abs z / ulp in
    let r := Z.abs z mod ulp in
    let q' := if bool_decide (2 * r < ulp) then q
              else if bool_decide (ulp < 2 * r) then q + 1
              else if Z.even q then q else q + 1 in
    Z.sgn z * (q' * ulp).

(** [x + y] on such numbers; [x - y] is [number_add x (- y)]. *)
Definition number_add (x y : Z) : Z := round_double (x + y).

(** The same sums on the binary64 numbers of the proof assistant, to
    compare with: the double of an integer below 2^63 in magnitude, and
    the integer that a double is, if it is one. *)
Definition double_of (z : Z) : PrimFloat.float :=
  let f := PrimFloat.of_uint63 (Uint63.of_Z (Z.abs z)) in
  if bool_decide (z < 0) then PrimFloat.opp f else f.

Definition integer_of (f : PrimFloat.float) : option Z :=
  match FloatOps.Prim2SF f with
  | SpecFloat.S754_zero _ => Some 0
  | SpecFloat.S754_finite s m e =>
      let sign := if s then -1 else 1 in
      if bool_decide (0 ≤ e) then Some (sign * (Z.pos m * 2 ^ e))
      else if bool_decide (Z.pos m mod 2 ^ (- e) = 0)
           then Some (sign * (Z.pos m / 2 ^ (- e)))
           else None
  | _ => None
  end.

Section UpdateScoresNumbers.
Variable now : jsstring.
Variable values : list ref.

(** Lines 379-384 with the arithmetic of doubles. *)
Definition adjust_numbers (winValue loseValue : ref) (heap : list Value)
  : list Value :=
  let heap :=
    alter (λ v, set_score (number_add (score v) 10) v) winValue heap in
  let heap :=
    alter (λ v, set_score (number_add (score v) (-10)) v) loseValue heap in
  let heap :=
    alter (λ v, set_comparisonCount (number_add (comparisonCount v) 1) v)
      winValue heap in
  let heap :=
    alter (λ v, set_comparisonCount (number_add (comparisonCount v) 1) v)
      loseValue heap in
  let heap := alter (set_updatedAt now) winValue heap in
  alter (set_updatedAt now) loseValue heap.

Definition apply_response_numbers (heap : list Value) (resp : jsstring)
  : Failure + list Value :=
  match resolve values heap resp with
  | inl failure => inl failure
  | inr (winValue, loseValue) => inr (adjust_numbers winValue loseValue heap)
  end.

Fixpoint apply_responses_numbers (heap : list Value)
    (responses : list jsstring) : Failure + list Value :=
  match responses with
  | [] => inr heap
  | resp :: rest =>
      match apply_response_numbers heap resp with
      | inl failure => inl failure
      | inr heap' => apply_responses_numbers heap' rest
      end
  end.
End UpdateScoresNumbers.

(** The action of [update-scores <file>] with the arithmetic of doubles:
    [update_scores] with [apply_responses_numbers] as its loop. *)
Definition update_scores_numbers (disk : list Value)
    (responses : option jsstring) (now : jsstring) : Exit (list Value) :=
  match responses with
  | None | Some [] => mkExit (inl MissingResponses) disk
  | Some text =>
      let '(heap, values) := readValues disk in
      match apply_responses_numbers now values heap (split comma text) with
      | inl failure => mkExit (inl failure) disk
      | inr heap' => mkExit (inr heap') (writeValues heap' values)
      end
  end.

(** The score and the comparisonCount of [v] stay within the integers
    that doubles hold exactly through [k] more outcomes: an outcome moves
    a score by at most 10 and a count by at most 2. *)
Definition within (k : Z) (v : Value) : Prop :=
  Z.abs (score v) + 10 * k ≤ 2 ^ 53
  ∧ Z.abs (comparisonCount v) + 2 * k ≤ 2 ^ 53.

(** ** Vocabulary of the properties of [update-scores] *)

(** Some record carries the title [t]. *)
Definition has_title (records : list Value) (t : jsstring) : Prop :=
  ∃ v, v ∈ records ∧ title v = t.

(** The response names, on its winner or its loser side, a title (after
    trimming) that no record carries. *)
Definition names_unknown_title (records : list Value) (resp : jsstring)
  : Prop :=
  ∃ side,
    (split greater_than resp !! 0%nat = Some side
     ∨ split greater_than resp !! 1%nat = Some side)
    ∧ ¬ has_title records (trim side).

(** Two different records carry the title [t]. *)
Definition ambiguous (records : list Value) (t : jsstring) : Prop :=
  ∃ i j v v', i ≠ j ∧ records !! i = Some v ∧ records !! j = Some v'
              ∧ title v = t ∧ title v' = t.

(** [r] is the first record, in store order, that carries the title [t]. *)
Definition first_with_title (records : list Value) (t : jsstring) (r : ref)
  : Prop :=
  (∃ v, records !! r = Some v ∧ title v = t)
  ∧ ∀ r' v', records !! r' = Some v' → title v' = t → (r ≤ r')%nat.

(** Two heaps of the same records whose titles agree. *)
Definition same_titles (heap heap' : list Value) : Prop :=
  length heap' = length heap
  ∧ ∀ r, title (heap' !!! r) = title (heap !!! r).

(** The fields that [update-scores] never writes agree. *)
Definition same_identity (v v' : Value) : Prop :=
  id v' = id v ∧ title v' = title v ∧ tags v' = tags v
  ∧ createdAt v' = createdAt v ∧ rationale v' = rationale v.

(** ** Sample data *)

Definition sample_value (name : string) (rating count : Z) : Value :=
  mkValue (js name) (js name) rating count [] [] [] [].

(** Five records, two of them never compared. *)
Definition sample_disk : list Value :=
  [ sample_value "Life" 1520 2; sample_value "Health" 1500 0;
    sample_value "Reason" 1510 1; sample_value "Purpose" 1490 0;
    sample_value "Career" 1480 1 ].

(** Two records with different histories. *)
Definition sample_two : list Value :=
  [ sample_value "Life" 1520 4; sample_value "Health" 1500 0 ].

(** A random source whose every draw is one half. *)
Definition half_draws : nat → Draw :=
  λ _, mkDraw (1 # 2)
         (conj (Qle_bool_imp_le 0 (1 # 2) eq_refl)
               (proj2 (Qlt_alt (1 # 2) 1) eq_refl)).

(** A store in which two records carry the title "Life". *)
Definition duplicate_disk : list Value :=
  [ sample_value "Life" 1520 2; sample_value "Health" 1500 0;
    sample_value "Life" 1480 1 ].

Definition sample_now : jsstring := js "2026-01-01T00:00:00.000Z".

(** A batch whose second response names a title that is not in
    [sample_disk]. *)
Definition sample_batch : jsstring :=
  js "Life>Health,Life>Wealth,Reason>Purpose".

Definition sample_response : jsstring := js "Life> Health ".


Definition duplicate_response : jsstring := js "Life>Health".

(** [duplicate_disk] after [duplicate_response]: the first "Life" and
    "Health" have moved, the second "Life" has not. *)
Definition duplicate_disk_updated : list Value :=
  [ mkValue (js "Life") (js "Life") 1530 3 [] [] sample_now [];
    mkValue (js "Health") (js "Health") 1490 1 [] [] sample_now [];
    sample_value "Life" 1480 1 ].

(** Ten records that were never compared, all with the same contents. *)
Definition ten_fresh : list Value := replicate 10 (sample_value "New" 1500 0).

(** Two records whose scores are beyond 2^53: 2^54 and 2^54 + 4 are
    doubles, 2^54 + 10 and 2^54 + 14 are not. *)
Definition huge_disk : list Value :=
  [ sample_value "Life" (2 ^ 54) 2; sample_value "Health" (2 ^ 54 + 4) 0 ].

Definition huge_response : jsstring := js "Life>Health".

(** Sums within and beyond 2^53, among them those of [huge_disk]. *)
Definition sample_sums : list (Z * Z) :=
  [ (1500, 10); (1500, -10); (0, 1); (2, 1); (2 ^ 53 - 10, 10);
    (2 ^ 53, 1); (2 ^ 53, 10); (2 ^ 53 + 2, 1); (2 ^ 54, 10);
    (2 ^ 54 + 4, 10); (2 ^ 54 + 4, -10); (2 ^ 54 + 16, -10);
    (2 ^ 54 + 8, 10); (- 2 ^ 54, -10); (- 2 ^ 54, 10); (2 ^ 60, 1);
    (2 ^ 60 + 256, 128); (2 ^ 60 + 256, 384); (2 ^ 55, -3) ].

(** * The other commands of [src/index.ts]

    The commands below end either in the error of an unknown id or
    normally; [file_after] is the file they leave. *)

Inductive IdNotFound :=
  | ValueIdNotFound (wanted : jsstring).   (* "Value with id ... not found" *)

Record Ended (A : Type) := mkEnded {
  ending : IdNotFound + A;
  file_after : list Value
}.
Arguments mkEnded {A} _ _.
Arguments ending {A} _.
Arguments file_after {A} _.

(** A string option as [if (option)] tests it: present and not empty. *)
Definition truthy (o : option jsstring) : bool :=
  match o with
  | Some (_ :: _) => true
  | _ => false
  end.

(** [option || ''] *)
Definition or_empty (o : option jsstring) : jsstring := default [] o.

Definition set_title (t : jsstring) (v : Value) : Value :=
  mkValue (id v) t (score v) (comparisonCount v) (tags v)
          (createdAt v) (updatedAt v) (rationale v).
Definition set_tags (t : jsstring) (v : Value) : Value :=
  mkValue (id v) (title v) (score v) (comparisonCount v) t
          (createdAt v) (updatedAt v) (rationale v).
Definition set_rationale (t : jsstring) (v : Value) : Value :=
  mkValue (id v) (title v) (score v) (comparisonCount v) (tags v)
          (createdAt v) (updatedAt v) t.

(** ** [add], [edit], [rationale], [remove] *)

(** The object that [add] builds. [generateId(title)] reads the clock and
    calls the slugify package; its result is taken as [new_id]. *)
Definition newValue (new_id title : jsstring) (tags desc : option jsstring)
    (now : jsstring) : Value :=
  mkValue new_id title 1500 0 (or_empty tags) now now (or_empty desc).

(** [add <file> <title>]: [values.push(newValue)], then write. The new
    object is allocated after the ones [readValues] made. *)
Definition add_action (disk : list Value) (new_id title : jsstring)
    (tags desc : option jsstring) (now : jsstring) : list Value :=
  let '(heap, values) := readValues disk in
  let fresh := length heap in
  let heap := heap ++ [newValue new_id title tags desc now] in
  let values := values ++ [fresh] in
  writeValues heap values.

(** [values.find(v => v.id === id)] and [values.findIndex(...)]. *)
Definition find_id (values : list ref) (heap : list Value) (wanted : jsstring)
  : option ref :=
  snd <$> list_find (λ r, id (heap !!! r) = wanted) values.
Definition findIndex_id (values : list ref) (heap : list Value)
    (wanted : jsstring) : option nat :=
  fst <$> list_find (λ r, id (heap !!! r) = wanted) values.

(** [edit <file> <id>]: [--title] and [--desc] are applied when present
    and not empty, [--tags] whenever it is present. *)
Definition edit_action (disk : list Value) (wanted : jsstring)
    (new_title new_tags new_desc : option jsstring) (now : jsstring)
  : Ended (list Value) :=
  let '(heap, values) := readValues disk in
  match find_id values heap wanted with
  | None => mkEnded (inl (ValueIdNotFound wanted)) disk
  | Some value =>
      let heap := if truthy new_title
                  then alter (set_title (or_empty new_title)) value heap
                  else heap in
      let heap := match new_tags with
                  | Some t => alter (set_tags t) value heap
                  | None => heap
                  end in
      let heap := if truthy new_desc
                  then alter (set_rationale (or_empty new_desc)) value heap
                  else heap in
      let heap := alter (set_updatedAt now) value heap in
      mkEnded (inr heap) (writeValues heap values)
  end.

(** What [rationale <file> <id>] did: it either updated the record, or
    printed this text under the heading. *)
Inductive RationaleOutput :=
  | RationaleUpdated
  | RationaleShown (text : jsstring).

Definition no_rationale : jsstring := js "(No rationale provided yet)".

Definition rationale_action (disk : list Value) (wanted : jsstring)
    (update : option jsstring) (now : jsstring) : Ended RationaleOutput :=
  let '(heap, values) := readValues disk in
  match find_id values heap wanted with
  | None => mkEnded (inl (ValueIdNotFound wanted)) disk
  | Some value =>
      if truthy update then
        let heap := alter (set_rationale (or_empty update)) value heap in
        let heap := alter (set_updatedAt now) value heap in
        mkEnded (inr RationaleUpdated) (writeValues heap values)
      else
        let text := rationale (heap !!! value) in
        mkEnded (inr (RationaleShown
                        (match text with [] => no_rationale | _ => text end)))
                disk
  end.

(** [remove <file> <id>]: [values.splice(index, 1)], then write. *)
Definition remove_action (disk : list Value) (wanted : jsstring)
  : Ended (list Value) :=
  let '(heap, values) := readValues disk in
  match findIndex_id values heap wanted with
  | None => mkEnded (inl (ValueIdNotFound wanted)) disk
  | Some index =>
      let values := delete index values in
      mkEnded (inr heap) (writeValues heap values)
  end.

(** ** [top10], [list], [hierarchy] *)

(** [s.startsWith(t)] and [s.includes(t)]: [t] occurs in [s] at the
    front, or anywhere. *)
Fixpoint starts_with (s t : jsstring) : bool :=
  match t, s with
  | [], _ => true
  | c :: t', d :: s' => bool_decide (c = d) && starts_with s' t'
  | _ :: _, [] => false
  end.

Fixpoint includes (s t : jsstring) : bool :=
  starts_with s t
  || match s with
     | [] => false
     | _ :: s' => includes s' t
     end.

(** One entry of the printed [values]: the rank and the fields of the
    record, which the program copies one by one. *)
Record Ranked := mkRanked {
  rank : Z;
  ranked : Value
}.

(** [values.map((v, idx) => ({ rank: idx + 1, ...v }))] *)
Definition rank_rows (heap : list Value) (values : list ref) : list Ranked :=
  imap (λ idx r, mkRanked (Z.of_nat idx + 1) (heap !!! r)) values.

(** [if (options.tag) values = values.filter(v => v.tags.includes(tag))] *)
Definition tag_filter (heap : list Value) (tag : option jsstring)
    (values : list ref) : list ref :=
  if truthy tag
  then filter (λ r, includes (tags (heap !!! r)) (or_empty tag) = true) values
  else values.

(** [values.sort((a, b) => b.score - a.score)] *)
Definition sort_by_score (heap : list Value) (values : list ref) : list ref :=
  sort_by (λ r, - score (heap !!! r)) values.

(** The array [values] that [hierarchy] prints. *)
Definition hierarchy_order (disk : list Value) : list ref :=
  let '(heap, values) := readValues disk in
  sort_by_score heap values.

Definition hierarchy_action (disk : list Value) : list Ranked :=
  rank_rows disk (hierarchy_order disk).

Definition top10_action (disk : list Value) (tag : option jsstring)
  : list Ranked :=
  let '(heap, values) := readValues disk in
  let values := tag_filter heap tag values in
  let values := sort_by_score heap values in
  let top10 := slice0 values 10 in
  rank_rows heap top10.

(** [parseInt] of an option text: an integer, or [NaN]. *)
Inductive Parsed :=
  | NaN
  | Int (z : Z).

(** [values.slice(0, parseInt(limit))]: [NaN] counts as 0. *)
Definition slice_limit {A} (values : list A) (limit : Parsed) : list A :=
  match limit with
  | NaN => slice0 values 0
  | Int z => slice0 values z
  end.

(** [list <file>]: [limit] is [None] when [--limit] is absent or empty. *)
Definition list_action (disk : list Value) (limit : option Parsed)
    (tag : option jsstring) : list Ranked :=
  let '(heap, values) := readValues disk in
  let values := tag_filter heap tag values in
  let values := sort_by_score heap values in
  let values := match limit with
                | Some l => slice_limit values l
                | None => values
                end in
  rank_rows heap values.

(** ** [validate] *)

Inductive Issue :=
  | DuplicateTitle (t : jsstring)     (* "Duplicate title: ..." *)
  | TooBroad (t : jsstring).          (* "... may be too broad" *)

Definition space : N := 32.

(** The body of [values.forEach] in [validate], on the set of titles seen
    and the issues pushed so far. *)
Definition validate_step (state : gset jsstring * list Issue) (v : Value)
  : gset jsstring * list Issue :=
  let '(titles, issues) := state in
  let issues := if decide (title v ∈ titles)
                then issues ++ [DuplicateTitle (title v)] else issues in
  let titles := titles ∪ {[title v]} in
  let issues := if bool_decide (length (split space (title v)) < 3)%nat
                then issues ++ [TooBroad (title v)] else issues in
  (titles, issues).

(** The array [issues] of [validate]; the file "is valid" when it is
    empty. The objects are only read, so the array of [readValues] is
    taken as the list of its records. *)
Definition validate_issues (values : list Value) : list Issue :=
  (foldl validate_step (∅, []) values).2.

(** ** [stats] (the counts; the tag clusters and the specificity score
    are not modelled) *)

(** [values.reduce((sum, v) => sum + v.comparisonCount, 0)] *)
Definition totalComparisons (values : list Value) : Z :=
  foldl (λ sum v, sum + comparisonCount v) 0 values.

(** [Math.min(...xs)]; [None] is the [Infinity] of an empty argument
    list. *)
Definition math_min (xs : list Z) : option Z :=
  match xs with
  | [] => None
  | x :: xs' => Some (foldl Z.min x xs')
  end.

(** [values.filter(v => v.comparisonCount === Math.min(...))] *)
Definition leastCompared (values : list Value) : list Value :=
  filter (λ v, Some (comparisonCount v)
               = math_min (comparisonCount <$> values)) values.

(** ** [loadTags] *)

Definition newline : N := 10.

Definition fallbackTags : list jsstring :=
  js <$> [ "life"; "reason"; "purpose"; "self-esteem";
           "productive-achievement"; "ethics"; "politics"; "epistemology";
           "metaphysics"; "productivity"; "goals"; "career"; "health";
           "relationships"; "creativity"; "habits"; "learning"; "philosophy";
           "principles"; "rationality"; "happiness" ]%string.

(** [lattice] is the text of [~/objectivist-lattice/tags.txt], or [None]
    when the file does not exist. *)
Definition loadTags (lattice : option jsstring) : list jsstring :=
  match lattice with
  | Some content =>
      filter (λ line, (0 < length line)%nat) (trim <$> split newline content)
  | None => fallbackTags
  end.

(** ** Vocabulary of the further properties *)

(** The sum of all scores. *)
Definition total_score (values : list Value) : Z :=
  foldr (λ v sum, score v + sum) 0 values.

(** A store started by [add] on a file that does not exist yet, where
    [readValues] finds no record, and grown by [add], [edit], [rationale]
    and [update-scores], each run of [update-scores] starting with the
    margin of its responses. *)
Inductive grown : list Value → Prop :=
  | grown_first new_id title tags desc now :
      grown (add_action [] new_id title tags desc now)
  | grown_add disk new_id title tags desc now :
      grown disk → grown (add_action disk new_id title tags desc now)
  | grown_edit disk wanted new_title new_tags new_desc now :
      grown disk →
      grown (file_after
               (edit_action disk wanted new_title new_tags new_desc now))
  | grown_rationale disk wanted update now :
      grown disk →
      grown (file_after (rationale_action disk wanted update now))
  | grown_update_scores disk text now :
      grown disk →
      Forall (within (Z.of_nat (length (split comma text)))) disk →
      grown (disk_after (update_scores_numbers disk (Some text) now)).

(** [t] occurs somewhere inside [s]. *)
Definition substring (t s : jsstring) : Prop := ∃ a b, s = a ++ t ++ b.

Definition pipe : N := 124.

(** A response the command can apply: both sides present and not empty,
    each trimmed side the title of some record. *)
Definition acceptable (records : list Value) (resp : jsstring) : Prop :=
  ∃ winner loser,
    split greater_than resp !! 0%nat = Some winner
    ∧ split greater_than resp !! 1%nat = Some loser
    ∧ winner ≠ [] ∧ loser ≠ []
    ∧ has_title records (trim winner) ∧ has_title records (trim loser).

(** What a run of [update-scores] keeps or moves in one record. *)
Definition rated_on (v v' : Value) : Prop :=
  same_identity v v' ∧ comparisonCount v ≤ comparisonCount v'
  ∧ (score v' - score v) mod 10 = 0.

(** The record at [r] passes the [--tag] filter. *)
Definition matches_tag (heap : list Value) (tag : option jsstring) (r : ref)
  : Prop :=
  truthy tag = true → includes (tags (heap !!! r)) (or_empty tag) = true.

(** Descending by score, ties in file order. *)
Definition best_first (heap : list Value) : relation ref :=
  key_then (λ r, - score (heap !!! r)) lt.

(** The number of entries that [slice(0, parseInt(limit))] keeps of [n]. *)
Definition kept (limit : Parsed) (n : nat) : nat :=
  match limit with
  | NaN => 0
  | Int z => if bool_decide (z < 0) then Z.to_nat (Z.of_nat n + z)
             else Nat.min (Z.to_nat z) n
  end.

#[global] Instance best_first_dec heap r r' : Decision (best_first heap r r').
Proof. unfold best_first, key_then. apply _. Defined.

(** A title of fewer than three words, as [validate] counts them. *)
Definition broad (t : jsstring) : Prop := (length (split space t) < 3)%nat.

(** A store that [validate] finds valid. *)
Definition valid_disk : list Value :=
  [ sample_value "Daily Walking Habit" 1500 0;
    sample_value "Writing Tech Articles" 1500 0 ].

(** * The commands on sample data *)

Example pairs_on_sample :
  pairs_action sample_disk 2 half_draws
  = mkExit (inr (mkPairsRun sample_disk [1; 3; 2; 4; 0]%nat [1; 3; 2; 4]%nat
                   [1; 4; 3; 2]%nat [(1, 4); (3, 2)]%nat)) sample_disk.
Proof. vm_compute. reflexivity. Qed.

Example pairs_on_ten_fresh :
  pairs_action ten_fresh 5 half_draws
  = mkExit (inr (mkPairsRun ten_fresh (seq 0 10) (seq 0 10)
                   [0; 9; 1; 7; 2; 6; 3; 8; 4; 5]%nat
                   [(0, 9); (1, 7); (2, 6); (3, 8); (4, 5)]%nat)) ten_fresh.
Proof. vm_compute. reflexivity. Qed.

Example pairs_on_one_record :
  pairs_action [sample_value "Life" 1500 0] 5 half_draws
  = mkExit (inl InsufficientRecords) [sample_value "Life" 1500 0].
Proof. vm_compute. reflexivity. Qed.

Example update_scores_on_sample_batch :
  update_scores sample_disk (Some sample_batch) sample_now
  = mkExit (inl (UnknownValue (js "Life") (js "Wealth"))) sample_disk.
Proof. vm_compute. reflexivity. Qed.

Example update_scores_on_sample_response :
  outcome (update_scores sample_disk (Some sample_response) sample_now)
  = inr [ mkValue (js "Life") (js "Life") 1530 3 [] [] sample_now [];
          mkValue (js "Health") (js "Health") 1490 1 [] [] sample_now [];
          sample_value "Reason" 1510 1; sample_value "Purpose" 1490 0;
          sample_value "Career" 1480 1 ].
Proof. vm_compute. reflexivity. Qed.

(** * Properties of the array operations *)

Section JsArrayFacts.
Context {A : Type}.
Implicit Types a l c : list A.

(** ** Sorting *)
Section SortFacts.
Variable key : A → Z.

Lemma insert_by_perm x l : insert_by key x l ≡ₚ x :: l.
Proof.
  induction l as [|y l IH]; simpl; [done|].
  case_bool_decide; [done|].
  by rewrite IH, Permutation_swap.
Qed.

Lemma sort_by_perm l : sort_by key l ≡ₚ l.
Proof.
  induction l as [|x l IH]; simpl; [done|].
  by rewrite insert_by_perm, IH.
Qed.

Lemma sort_by_length l : length (sort_by key l) = length l.
Proof. by rewrite sort_by_perm. Qed.

(** Stability: the records of one key keep their relative order. *)
Lemma filter_insert_by k x l :
  filter (λ v, key v = k) (insert_by key x l)
  = filter (λ v, key v = k) (x :: l).
Proof.
  induction l as [|y l IH]; simpl; [done|].
  case_bool_decide as Hxy; [done|].
  rewrite (filter_cons _ y), IH, !filter_cons.
  repeat case_decide; try done; lia.
Qed.

Lemma filter_sort_by k l :
  filter (λ v, key v = k) (sort_by key l) = filter (λ v, key v = k) l.
Proof.
  induction l as [|x l IH]; simpl; [done|].
  by rewrite filter_insert_by, !filter_cons, IH.
Qed.

Lemma key_then_le (before : relation A) x y :
  key_then key before x y → key x ≤ key y.
Proof. unfold key_then. lia. Qed.

Lemma key_then_intro (before : relation A) x y :
  key x ≤ key y → before x y → key_then key before x y.
Proof.
  intros Hk Hb. destruct (decide (key x = key y)); [by right|left; lia].
Qed.

Lemma insert_by_sorted (before : relation A) x l :
  Forall (before x) l →
  StronglySorted (key_then key before) l →
  StronglySorted (key_then key before) (insert_by key x l).
Proof.
  intros Hx Hl. induction Hl as [|y l Hl IH Hy]; simpl.
  { repeat constructor. }
  apply Forall_cons in Hx as [Hxy Hx].
  case_bool_decide as Hk.
  - constructor; [by constructor|].
    constructor; [apply key_then_intro; [lia|done]|].
    rewrite Forall_forall in Hx, Hy. apply Forall_forall.
    intros z Hz. apply key_then_intro; [|by apply Hx].
    pose proof (key_then_le _ _ _ (Hy z Hz)). lia.
  - constructor; [by apply IH|].
    rewrite insert_by_perm. constructor; [|done].
    left. lia.
Qed.

Lemma sort_by_sorted (before : relation A) l :
  StronglySorted before l →
  StronglySorted (key_then key before) (sort_by key l).
Proof.
  induction 1 as [|x l Hl IH Hx]; simpl; [constructor|].
  apply insert_by_sorted; [|done].
  by rewrite sort_by_perm.
Qed.

(** The first entry of the sorted array carries the least key. *)
Lemma sort_by_head_least (before : relation A) l x :
  StronglySorted before l →
  head (sort_by key l) = Some x →
  x ∈ l ∧ Forall (λ y, key x ≤ key y) l.
Proof.
  intros Hl Hhead.
  pose proof (sort_by_sorted before l Hl) as Hs.
  destruct (sort_by key l) as [|x' s] eqn:E; simplify_eq/=.
  assert (Hp : x :: s ≡ₚ l) by (rewrite <-E; apply sort_by_perm).
  split; [rewrite <-Hp; left|].
  rewrite <-Hp. apply StronglySorted_inv in Hs as [_ Hx].
  constructor; [lia|].
  eapply Forall_impl; [exact Hx|]. intros y Hy.
  by apply key_then_le in Hy.
Qed.
End SortFacts.

(** ** Shuffling *)

Lemma random_index_le (r : Draw) (i : nat) : (random_index r i ≤ i)%nat.
Proof.
  unfold random_index. destruct r as [q [Hge Hlt]]; cbn [draw].
  set (n := Z.of_nat i + 1).
  assert (Hn : (0 < inject_Z n)%Q).
  { change 0%Q with (inject_Z 0). rewrite <-Zlt_Qlt. lia. }
  assert (Hup : (q * inject_Z n < inject_Z n)%Q).
  { rewrite <-(Qmult_1_l (inject_Z n)) at 2.
    by apply Qmult_lt_compat_r. }
  assert (Qfloor (q * inject_Z n) < n).
  { rewrite Zlt_Qlt. eapply Qle_lt_trans; [apply Qfloor_le|done]. }
  unfold n in *. lia.
Qed.

Lemma swap_length a i j : length (swap a i j) = length a.
Proof.
  unfold swap. destruct (a !! j), (a !! i); try done.
  by rewrite !length_insert.
Qed.

Lemma swap_perm a i j : swap a i j ≡ₚ a.
Proof.
  unfold swap. destruct (a !! j) eqn:Hj, (a !! i) eqn:Hi; try done.
  by apply Permutation_insert_swap.
Qed.

(** The index drawn for position [i] is a position of the array, so the
    swap of the shuffle always exchanges two entries. *)
Lemma swap_random_index a (r : Draw) i :
  (i < length a)%nat →
  ∃ x y, a !! i = Some x ∧ a !! random_index r i = Some y ∧
         swap a i (random_index r i)
         = <[random_index r i:=x]> (<[i:=y]> a).
Proof.
  intros Hi. pose proof (random_index_le r i) as Hj.
  destruct (lookup_lt_is_Some_2 a i Hi) as [x Hx].
  destruct (lookup_lt_is_Some_2 a (random_index r i)) as [y Hy]; [lia|].
  exists x, y. unfold swap. by rewrite Hx, Hy.
Qed.

Lemma shuffle_from_perm rnd k i a : shuffle_from rnd k i a ≡ₚ a.
Proof.
  revert k a. induction i as [|i IH]; intros k a; simpl; [done|].
  by rewrite IH, swap_perm.
Qed.

Lemma shuffle_perm rnd a : shuffle rnd a ≡ₚ a.
Proof. apply shuffle_from_perm. Qed.

Lemma shuffle_length rnd a : length (shuffle rnd a) = length a.
Proof. by rewrite shuffle_perm. Qed.

(** ** Emitting pairs *)

Lemma pair_loop_length fuel bound c i :
  bound ≤ Z.of_nat (length c) - 1 →
  bound - Z.of_nat i ≤ 2 * Z.of_nat fuel →
  length (pair_loop fuel bound c i)
  = Z.to_nat ((bound - Z.of_nat i + 1) / 2).
Proof.
  intros Hb. revert i. induction fuel as [|fuel IH]; intros i Hf; simpl.
  { symmetry. apply Z2Nat.nonpos.
    assert ((bound - Z.of_nat i + 1) / 2 < 1); [|lia].
    apply Z.div_lt_upper_bound; lia. }
  case_bool_decide as Hi.
  - destruct (lookup_lt_is_Some_2 c i) as [x ->]; [lia|].
    destruct (lookup_lt_is_Some_2 c (i + 1)) as [y ->]; [lia|].
    simpl. rewrite IH by lia.
    replace (bound - Z.of_nat i + 1) with
      ((bound - Z.of_nat (i + 2) + 1) + 1 * 2) by lia.
    rewrite Z.div_add by lia.
    assert (0 ≤ (bound - Z.of_nat (i + 2) + 1) / 2)
      by (apply Z.div_pos; lia).
    lia.
  - symmetry. apply Z2Nat.nonpos.
    assert ((bound - Z.of_nat i + 1) / 2 < 1); [|lia].
    apply Z.div_lt_upper_bound; lia.
Qed.

Lemma pair_loop_paired fuel bound c i :
  paired (pair_loop fuel bound c i)
  = take (2 * length (pair_loop fuel bound c i)) (drop i c).
Proof.
  unfold paired. revert i.
  induction fuel as [|fuel IH]; intros i; simpl; [done|].
  case_bool_decide; [|done].
  destruct (c !! i) as [x|] eqn:Hx; [|done].
  destruct (c !! (i + 1)%nat) as [y|] eqn:Hy; [|done].
  simpl. rewrite IH.
  rewrite (drop_S c x i Hx).
  replace (S i) with (i + 1)%nat by lia.
  rewrite (drop_S c y (i + 1) Hy).
  replace (length (pair_loop fuel bound c (i + 2)) +
           S (length (pair_loop fuel bound c (i + 2)) + 0))%nat
    with (S (2 * length (pair_loop fuel bound c (i + 2))))%nat by lia.
  simpl. do 3 f_equal. f_equal. lia.
Qed.

Lemma emit_pairs_length num c :
  length (emit_pairs num c)
  = Z.to_nat (Z.min num (Z.of_nat (length c) / 2)).
Proof.
  unfold emit_pairs. rewrite pair_loop_length by lia.
  f_equal. rewrite Z.sub_0_r.
  pose proof (Z.div_mod (Z.of_nat (length c)) 2 ltac:(lia)).
  pose proof (Z.mod_pos_bound (Z.of_nat (length c)) 2 ltac:(lia)).
  destruct (decide (num * 2 ≤ Z.of_nat (length c) - 1)).
  - rewrite Z.min_l by lia.
    replace (num * 2 + 1) with (1 + num * 2) by lia.
    rewrite Z.div_add by lia. change (1 / 2) with 0. lia.
  - rewrite Z.min_r by lia.
    replace (Z.of_nat (length c) - 1 + 1) with (Z.of_nat (length c)) by lia.
    lia.
Qed.

Lemma emit_pairs_paired num c :
  paired (emit_pairs num c) = take (2 * length (emit_pairs num c)) c.
Proof. unfold emit_pairs. by rewrite pair_loop_paired. Qed.

Lemma emit_pairs_NoDup num c : NoDup c → NoDup (paired (emit_pairs num c)).
Proof.
  intros Hc. rewrite emit_pairs_paired.
  eapply sublist_NoDup; [done|apply sublist_take].
Qed.

Lemma slice0_take (l : list A) (e : Z) :
  0 ≤ e → slice0 l e = take (Z.to_nat e) l.
Proof.
  intros He. unfold slice0. rewrite bool_decide_eq_false_2 by lia.
  destruct (decide (e ≤ Z.of_nat (length l))).
  - by rewrite Z.min_l.
  - rewrite Z.min_r, Nat2Z.id, !take_ge by lia. done.
Qed.
End JsArrayFacts.

(** * Properties of the [pairs] command *)

Lemma seq_sorted (n : nat) : StronglySorted lt (seq 0 n).
Proof.
  generalize 0%nat. induction n as [|n IH]; intros j; simpl; constructor.
  - apply IH.
  - apply Forall_forall. intros x [? _]%elem_of_seq. lia.
Qed.

Lemma minimum_count_least records m :
  minimum_count records = Some m →
  (∃ v, v ∈ records ∧ comparisonCount v = m)
  ∧ Forall (λ v, m ≤ comparisonCount v) records.
Proof.
  destruct records as [|v vs]; intros Hm; simplify_eq/=.
  induction vs as [|w vs [(u & Hu & Hcu) IH]]; simpl.
  { split; [exists v; split; [left|done]|by repeat constructor]. }
  apply Forall_cons in IH as [Hv IH]. split.
  - destruct (decide (comparisonCount w ≤
      foldr (λ x m, Z.min (comparisonCount x) m) (comparisonCount v) vs)).
    + exists w. split; [right; left|lia].
    + exists u. split; [|lia].
      apply elem_of_cons in Hu as [->|Hu]; [left|do 2 right; done].
  - repeat constructor; [lia..|].
    eapply Forall_impl; [exact IH|]. simpl. intros; lia.
Qed.

Section PairsFacts.
Variable heap : list Value.
Let sorted := sort_by (count_of heap) (seq 0 (length heap)).

Lemma sorted_perm : sorted ≡ₚ seq 0 (length heap).
Proof. apply sort_by_perm. Qed.

Lemma sorted_lowest_first : StronglySorted (lowest_first heap) sorted.
Proof. apply sort_by_sorted, seq_sorted. Qed.

Lemma sorted_NoDup : NoDup sorted.
Proof. rewrite sorted_perm. apply NoDup_seq. Qed.

Lemma sorted_length : length sorted = length heap.
Proof. by rewrite sorted_perm, length_seq. Qed.

(** The count the program reads at [values[0]] is the least count. *)
Lemma minCount_minimum m :
  minCount heap sorted = Some m ↔ minimum_count heap = Some m.
Proof.
  assert (Hfwd : ∀ m', minCount heap sorted = Some m' →
                       minimum_count heap = Some m').
  { intros m' Hm. unfold minCount in Hm.
    destruct (head sorted) as [r|] eqn:Hr; simplify_eq/=.
    apply (sort_by_head_least _ lt) in Hr as [Hin Hle]; [|apply seq_sorted].
    apply elem_of_seq in Hin as [_ Hin]. simpl in Hin.
    destruct (minimum_count heap) as [k|] eqn:Hk.
    2:{ destruct heap; simplify_eq/=. lia. }
    apply minimum_count_least in Hk as [(v & Hv & Hcv) Hall].
    f_equal. apply Z.le_antisymm.
    - rewrite Forall_forall in Hall. apply Hall.
      apply list_elem_of_lookup_total_2. lia.
    - apply list_elem_of_lookup in Hv as [i Hi].
      rewrite Forall_forall in Hle.
      assert (Hi' : i ∈ seq 0 (length heap)).
      { apply elem_of_seq. apply lookup_lt_Some in Hi. lia. }
      specialize (Hle i Hi'). unfold count_of in Hle at 2.
      by rewrite (list_lookup_total_correct _ _ _ Hi), Hcv in Hle. }
  split; [apply Hfwd|]. intros Hm.
  destruct (minCount heap sorted) as [m'|] eqn:Hm'.
  - specialize (Hfwd m' eq_refl). congruence.
  - unfold minCount in Hm'. apply fmap_None in Hm'.
    apply head_None in Hm'. pose proof sorted_length as Hl.
    rewrite Hm' in Hl. destruct heap; simplify_eq/=.
Qed.

(** The cohort of the program, filtered out of the sorted array, is the
    cohort in original order. *)
Lemma sorted_cohort m :
  filter (λ v, count_of heap v = m) sorted = cohort heap m.
Proof. apply filter_sort_by. Qed.
End PairsFacts.

(** The candidates that [select_candidates] computes from the sorted array,
    spelled out case by case. *)
Lemma select_candidates_cases heap num m :
  minimum_count heap = Some m →
  let sorted := sort_by (count_of heap) (seq 0 (length heap)) in
  ∃ pool, select_candidates heap sorted num = Some pool ∧
    (3 ≤ m → pool = sorted) ∧
    (m < 3 → 2 * num ≤ Z.of_nat (length (cohort heap m)) →
       pool = cohort heap m) ∧
    (m < 3 → Z.of_nat (length (cohort heap m)) < 2 * num →
       pool = take (Z.to_nat (2 * num)) sorted).
Proof.
  intros Hm sorted. apply minCount_minimum in Hm. fold sorted in Hm.
  unfold select_candidates. rewrite Hm. simpl.
  fold sorted. rewrite (sorted_cohort heap m : filter _ sorted = _).
  eexists. split; [done|]. split_and!.
  - intros ?. by rewrite bool_decide_eq_true_2 by lia.
  - intros ??. rewrite bool_decide_eq_false_2 by lia.
    by rewrite bool_decide_eq_false_2 by lia.
  - intros ??. rewrite bool_decide_eq_false_2 by lia.
    rewrite bool_decide_eq_true_2 by lia.
    rewrite slice0_take by lia.
    destruct (decide (num * 2 ≤ Z.of_nat (length sorted))).
    + rewrite Z.min_r by lia. f_equal. lia.
    + rewrite Z.min_l, Nat2Z.id, !take_ge by lia. done.
Qed.

Lemma minimum_count_is_Some records :
  (0 < length records)%nat → is_Some (minimum_count records).
Proof. destruct records; simpl; [lia|eauto]. Qed.

Lemma cohort_sublist heap m :
  cohort heap m `sublist_of` sort_by (count_of heap) (seq 0 (length heap)).
Proof. rewrite <-sorted_cohort. apply sublist_filter. Qed.

(** With at least two records the command runs to its end, and what it
    holds then is determined by the sorted array and the candidates. *)
Lemma pairs_action_run disk num rnd :
  (2 ≤ length disk)%nat →
  let sorted := sort_by (count_of disk) (seq 0 (length disk)) in
  ∃ m pool,
    minimum_count disk = Some m ∧
    select_candidates disk sorted num = Some pool ∧
    pairs_action disk num rnd =
      mkExit (inr (mkPairsRun disk
                     (if bool_decide (m >= 3) then shuffle rnd pool else sorted)
                     pool (shuffle rnd pool)
                     (emit_pairs num (shuffle rnd pool)))) disk.
Proof.
  intros Hlen sorted.
  destruct (minimum_count_is_Some disk) as [m Hm]; [lia|].
  destruct (select_candidates_cases disk num m Hm) as (pool & Hpool & _).
  exists m, pool. split_and!; [done..|].
  unfold pairs_action, readValues.
  rewrite bool_decide_eq_false_2 by (rewrite length_seq; lia).
  apply minCount_minimum in Hm. fold sorted. fold sorted in Hm, Hpool.
  by rewrite Hm, Hpool.
Qed.

Lemma select_candidates_sublist heap num pool :
  let sorted := sort_by (count_of heap) (seq 0 (length heap)) in
  select_candidates heap sorted num = Some pool →
  pool `sublist_of` sorted.
Proof.
  intros sorted Hpool. unfold select_candidates in Hpool.
  destruct (minCount heap sorted) as [m|]; simplify_eq/=.
  case_bool_decide; [done|].
  case_bool_decide; [|apply sublist_filter].
  unfold slice0. case_bool_decide; apply sublist_take.
Qed.

Lemma select_candidates_length heap num pool :
  (2 ≤ length heap)%nat → 1 ≤ num →
  let sorted := sort_by (count_of heap) (seq 0 (length heap)) in
  select_candidates heap sorted num = Some pool →
  (2 ≤ length pool)%nat.
Proof.
  intros Hlen Hnum sorted Hpool.
  destruct (minimum_count_is_Some heap) as [m Hm]; [lia|].
  destruct (select_candidates_cases heap num m Hm)
    as (pool' & Hpool' & Hall & Hcohort & Hext).
  fold sorted in Hpool', Hall, Hext. simplify_eq.
  pose proof (sorted_length heap) as Hs. fold sorted in Hs.
  destruct (decide (3 ≤ m)); [rewrite Hall by done; lia|].
  destruct (decide (2 * num ≤ Z.of_nat (length (cohort heap m)))).
  - rewrite Hcohort by lia. lia.
  - rewrite Hext, length_take by lia. lia.
Qed.

Lemma paired_lookup {A} (pairs : list (A * A)) i p :
  pairs !! i = Some p →
  paired pairs !! (2 * i)%nat = Some p.1
  ∧ paired pairs !! (2 * i + 1)%nat = Some p.2.
Proof.
  revert i. induction pairs as [|q pairs IH]; intros [|i] Hi; simplify_eq/=.
  { done. }
  replace (i + S (i + 0))%nat with (S (2 * i)) by lia.
  replace (i + S (i + 0) + 1)%nat with (S (2 * i + 1)) by lia.
  by apply IH.
Qed.

(** An array of pairs without a repeated entry: the two sides of a pair
    differ and two pairs share no entry. *)
Lemma paired_NoDup_apart {A} (pairs : list (A * A)) :
  NoDup (paired pairs) →
  (∀ p, p ∈ pairs → p.1 ≠ p.2)
  ∧ (∀ i j p q, i ≠ j → pairs !! i = Some p → pairs !! j = Some q →
       p.1 ≠ q.1 ∧ p.1 ≠ q.2 ∧ p.2 ≠ q.1 ∧ p.2 ≠ q.2).
Proof.
  intros Hnd. split.
  - intros p [i Hi]%list_elem_of_lookup Heq.
    apply paired_lookup in Hi as [H1 H2]. rewrite <-Heq in H2.
    pose proof (NoDup_lookup _ _ _ _ Hnd H1 H2). lia.
  - intros i j p q Hij [Hp1 Hp2]%paired_lookup [Hq1 Hq2]%paired_lookup.
    split_and!; intros Heq; rewrite Heq in *;
      match goal with
      | H1 : paired pairs !! ?a = Some ?x, H2 : paired pairs !! ?b = Some ?x
        |- _ => pose proof (NoDup_lookup _ _ _ _ Hnd H1 H2); lia
      end.
Qed.

(** ** The claims about [pairs] *)



(** C3. The candidate pool of a store of at least two records, with [m]
    the least [comparisonCount] over all records: every record when
    [m >= 3]; otherwise the records whose count is [m], unless these are
    fewer than [2 * n], in which case the pool is the first [2 * n] entries
    of the records ordered ascending by count with ties in original order
    (all of them when there are fewer than [2 * n]). *)
Theorem candidate_pool_policy disk num rnd :
  (2 ≤ length disk)%nat →
  ∃ m run,
    minimum_count disk = Some m ∧
    outcome (pairs_action disk num rnd) = inr run ∧
    (3 ≤ m → run_pool run ≡ₚ seq 0 (length disk)) ∧
    (m < 3 → 2 * num ≤ Z.of_nat (length (cohort disk m)) →
       run_pool run = cohort disk m) ∧
    (m < 3 → Z.of_nat (length (cohort disk m)) < 2 * num →
       ∃ ordered,
         ordered ≡ₚ seq 0 (length disk) ∧
         StronglySorted (lowest_first disk) ordered ∧
         run_pool run = take (Z.to_nat (2 * num)) ordered).
Proof.
  intros Hlen.
  destruct (pairs_action_run disk num rnd Hlen) as (m & pool & Hm & Hpool & ->).
  destruct (select_candidates_cases disk num m Hm)
    as (pool' & Hpool' & Hall & Hcohort & Hext).
  simpl in *. simplify_eq.
  exists m. eexists. split_and!; [done..| | |]; simpl.
  - intros ?. rewrite Hall by done. apply sorted_perm.
  - done.
  - intros ??. eexists. split_and!;
      [apply sorted_perm|apply sorted_lowest_first|by apply Hext].
Qed.

Lemma candidate_pool_policy_witness :
  (2 ≤ length sample_disk)%nat ∧
  ∃ m run,
    minimum_count sample_disk = Some m ∧
    outcome (pairs_action sample_disk 2 half_draws) = inr run ∧
    (3 ≤ m → run_pool run ≡ₚ seq 0 (length sample_disk)) ∧
    (m < 3 → 2 * 2 ≤ Z.of_nat (length (cohort sample_disk m)) →
       run_pool run = cohort sample_disk m) ∧
    (m < 3 → Z.of_nat (length (cohort sample_disk m)) < 2 * 2 →
       ∃ ordered,
         ordered ≡ₚ seq 0 (length sample_disk) ∧
         StronglySorted (lowest_first sample_disk) ordered ∧
         run_pool run = take (Z.to_nat (2 * 2)) ordered).
Proof.
  split; [simpl; lia|].
  apply (candidate_pool_policy sample_disk 2 half_draws). simpl; lia.
Defined.

(** C5. For a store of at least two records, no record occurs twice among
    the entries of the returned pairs: the two records of a pair are
    distinct objects, and two different pairs have no record in common.
    Every entry is a record of the store. *)
Theorem pairs_disjoint disk num rnd :
  (2 ≤ length disk)%nat →
  ∃ run, outcome (pairs_action disk num rnd) = inr run ∧
    NoDup (paired (run_pairs run)) ∧
    Forall (λ r, (r < length disk)%nat) (paired (run_pairs run)) ∧
    (∀ p, p ∈ run_pairs run → p.1 ≠ p.2) ∧
    (∀ i j p q, i ≠ j →
       run_pairs run !! i = Some p → run_pairs run !! j = Some q →
       p.1 ≠ q.1 ∧ p.1 ≠ q.2 ∧ p.2 ≠ q.1 ∧ p.2 ≠ q.2).
Proof.
  intros Hlen.
  destruct (pairs_action_run disk num rnd Hlen)
    as (m & pool & _ & Hpool & ->).
  apply select_candidates_sublist in Hpool.
  assert (Hnd : NoDup (shuffle rnd pool)).
  { rewrite shuffle_perm. eapply sublist_NoDup; [apply sorted_NoDup|done]. }
  eexists. split; [done|]. simpl.
  pose proof (emit_pairs_NoDup num _ Hnd) as Hpairs.
  split; [done|]. split; [|by apply paired_NoDup_apart].
  rewrite emit_pairs_paired. apply Forall_forall. intros r Hr.
  apply subseteq_take in Hr. rewrite shuffle_perm in Hr.
  eapply elem_of_sublist in Hr; [|exact Hpool].
  rewrite sorted_perm in Hr. apply elem_of_seq in Hr. lia.
Qed.

Lemma pairs_disjoint_witness :
  (2 ≤ length sample_disk)%nat ∧
  ∃ run, outcome (pairs_action sample_disk 2 half_draws) = inr run ∧
    NoDup (paired (run_pairs run)) ∧
    Forall (λ r, (r < length sample_disk)%nat) (paired (run_pairs run)) ∧
    (∀ p, p ∈ run_pairs run → p.1 ≠ p.2) ∧
    (∀ i j p q, i ≠ j →
       run_pairs run !! i = Some p → run_pairs run !! j = Some q →
       p.1 ≠ q.1 ∧ p.1 ≠ q.2 ∧ p.2 ≠ q.1 ∧ p.2 ≠ q.2).
Proof.
  split; [simpl; lia|].
  apply (pairs_disjoint sample_disk 2 half_draws). simpl; lia.
Defined.

(** C7. On a store of exactly two records the command returns exactly one
    pair for every [n >= 1], whatever the two counts are. *)
Theorem pairs_of_two disk num rnd :
  length disk = 2%nat → 1 ≤ num →
  ∃ run, outcome (pairs_action disk num rnd) = inr run ∧
    length (run_pairs run) = 1%nat.
Proof.
  intros Hlen Hnum.
  destruct (pairs_action_run disk num rnd) as (m & pool & _ & Hpool & ->);
    [lia|].
  eexists. split; [done|]. simpl.
  pose proof (select_candidates_length disk num pool ltac:(lia) Hnum Hpool)
    as Hlow.
  apply select_candidates_sublist, sublist_length in Hpool.
  rewrite sorted_length in Hpool.
  rewrite emit_pairs_length, shuffle_length.
  replace (length pool) with 2%nat by lia.
  change (Z.of_nat 2 / 2) with 1. lia.
Qed.

Lemma pairs_of_two_witness :
  (length sample_two = 2%nat ∧ 1 ≤ 5) ∧
  ∃ run, outcome (pairs_action sample_two 5 half_draws) = inr run ∧
    length (run_pairs run) = 1%nat.
Proof.
  split; [split; [reflexivity|lia]|].
  apply (pairs_of_two sample_two 5 half_draws); [reflexivity|lia].
Defined.

(** C8. The command is read-only over the records: the file is left as it
    was, every record object holds the field values it was read with, and
    the array of records holds the same objects (reordered by the sort and,
    where [candidates] is the same array, by the shuffle). *)
Theorem pairs_read_only disk num rnd :
  disk_after (pairs_action disk num rnd) = disk ∧
  match outcome (pairs_action disk num rnd) with
  | inl _ => True
  | inr run =>
      run_heap run = disk ∧ run_values run ≡ₚ seq 0 (length disk)
  end.
Proof.
  destruct (decide (2 ≤ length disk)%nat) as [Hlen|Hlen].
  - destruct (pairs_action_run disk num rnd Hlen)
      as (m & pool & Hm & Hpool & ->).
    destruct (select_candidates_cases disk num m Hm)
      as (pool' & Hpool' & Hall & _).
    simpl in *. simplify_eq. split_and!; [done..|].
    case_bool_decide; [|apply sorted_perm].
    rewrite shuffle_perm, Hall by lia. apply sorted_perm.
  - unfold pairs_action, readValues.
    rewrite bool_decide_eq_true_2 by (rewrite length_seq; lia). done.
Qed.

(** C10. For a store of at least two records and [n >= 1] the candidate
    pool, extension rule included, holds at least two records, and the
    command returns at least one pair. *)
Theorem pairs_nonempty disk num rnd :
  (2 ≤ length disk)%nat → 1 ≤ num →
  ∃ run, outcome (pairs_action disk num rnd) = inr run ∧
    (2 ≤ length (run_pool run))%nat ∧
    (1 ≤ length (run_pairs run))%nat.
Proof.
  intros Hlen Hnum.
  destruct (pairs_action_run disk num rnd Hlen)
    as (m & pool & _ & Hpool & ->).
  eexists. split; [done|]. simpl.
  pose proof (select_candidates_length disk num pool Hlen Hnum Hpool) as Hlow.
  split; [done|].
  rewrite emit_pairs_length, shuffle_length.
  assert (1 ≤ Z.of_nat (length pool) / 2); [|lia].
  apply Z.div_le_lower_bound; lia.
Qed.

Lemma pairs_nonempty_witness :
  ((2 ≤ length sample_disk)%nat ∧ 1 ≤ 1) ∧
  ∃ run, outcome (pairs_action sample_disk 1 half_draws) = inr run ∧
    (2 ≤ length (run_pool run))%nat ∧
    (1 ≤ length (run_pairs run))%nat.
Proof.
  split; [split; [simpl|]; lia|].
  apply (pairs_nonempty sample_disk 1 half_draws); [simpl|]; lia.
Defined.

(** * Properties of the [update-scores] command *)

Lemma writeValues_all heap : writeValues heap (seq 0 (length heap)) = heap.
Proof.
  unfold writeValues. apply list_eq. intros i.
  rewrite list_lookup_fmap.
  destruct (decide (i < length heap)%nat) as [Hi|Hi].
  - rewrite lookup_seq_lt by done. simpl.
    by rewrite list_lookup_lookup_total_lt.
  - rewrite lookup_seq_ge, lookup_ge_None_2 by lia. done.
Qed.

(** ** One response *)

(** What the six assignments of [adjust] leave at each position. *)
Lemma adjust_lookup now w l heap r v :
  heap !! r = Some v →
  ∃ v', adjust now w l heap !! r = Some v' ∧
    same_identity v v' ∧
    score v' = score v + (if decide (r = w) then 10 else 0)
                       - (if decide (r = l) then 10 else 0) ∧
    comparisonCount v' = comparisonCount v
                         + (if decide (r = w) then 1 else 0)
                         + (if decide (r = l) then 1 else 0) ∧
    updatedAt v' = (if decide (r = w ∨ r = l) then now else updatedAt v).
Proof.
  intros Hv. unfold adjust, same_identity.
  destruct (decide (r = w)) as [Hw|Hw], (decide (r = l)) as [Hl|Hl];
    simplify_eq;
    repeat first
      [ rewrite list_lookup_alter_eq | rewrite list_lookup_alter_ne by done ];
    rewrite Hv; simpl; eexists; (split; [done|]); simpl;
    repeat case_decide; split_and!; try done; try lia; naive_solver.
Qed.

Lemma adjust_length now w l heap : length (adjust now w l heap) = length heap.
Proof. unfold adjust. by rewrite !length_alter. Qed.

Lemma adjust_title now w l heap r :
  title (adjust now w l heap !!! r) = title (heap !!! r).
Proof.
  rewrite !list_lookup_total_alt.
  destruct (heap !! r) as [v|] eqn:Hv.
  - destruct (adjust_lookup now w l heap r v Hv) as (v' & -> & Hid & _).
    simpl. apply Hid.
  - rewrite (lookup_ge_None_2 (adjust now w l heap)); [done|].
    rewrite adjust_length. by apply lookup_ge_None.
Qed.

Lemma same_titles_refl heap : same_titles heap heap.
Proof. by split. Qed.

Lemma same_titles_adjust now w l heap heap' :
  same_titles heap heap' → same_titles heap (adjust now w l heap').
Proof.
  intros [Hlen Ht]. split; [by rewrite adjust_length|].
  intros r. by rewrite adjust_title.
Qed.

Lemma same_titles_has_title heap heap' t :
  same_titles heap heap' → has_title heap' t → has_title heap t.
Proof.
  intros [Hlen Ht] (v & [r Hr]%list_elem_of_lookup & Hv).
  exists (heap !!! r). split.
  - apply list_elem_of_lookup_total_2. apply lookup_lt_Some in Hr. lia.
  - by rewrite <-Ht, (list_lookup_total_correct _ _ _ Hr).
Qed.

Lemma find_title_None heap t :
  ¬ has_title heap t → find_title (seq 0 (length heap)) heap t = None.
Proof.
  intros Hno. unfold find_title. apply fmap_None, list_find_None.
  apply Forall_forall. intros r [_ Hr]%elem_of_seq Ht. apply Hno.
  exists (heap !!! r). split; [|done].
  apply list_elem_of_lookup_total_2. lia.
Qed.

(** [find] returns the first record that carries the title. *)
Lemma find_title_first heap t :
  has_title heap t →
  ∃ r, find_title (seq 0 (length heap)) heap t = Some r
       ∧ first_with_title heap t r.
Proof.
  intros (v & Hv & Ht).
  apply list_elem_of_lookup in Hv as [i Hi].
  destruct (list_find_elem_of (λ r, title (heap !!! r) = t)
              (seq 0 (length heap)) i) as [[k r] Hfind].
  { apply elem_of_seq. apply lookup_lt_Some in Hi. lia. }
  { by rewrite (list_lookup_total_correct _ _ _ Hi). }
  exists r. unfold find_title. rewrite Hfind. split; [done|].
  apply list_find_Some in Hfind as (Hk & Hr & Hmin).
  apply lookup_seq in Hk as [-> Hk]. simpl in *.
  split.
  - exists (heap !!! k). split; [|done].
    by apply list_lookup_lookup_total_lt.
  - intros r' v' Hr' Ht'.
    destruct (decide (k ≤ r')%nat) as [|Hlt]; [done|]. exfalso.
    apply (Hmin r' r'); [|lia|].
    + apply lookup_seq. split; [done|]. by apply lookup_lt_Some in Hr'.
    + by rewrite (list_lookup_total_correct _ _ _ Hr').
Qed.

Lemma first_with_title_unique heap t r r' :
  first_with_title heap t r → first_with_title heap t r' → r = r'.
Proof.
  intros [(v & Hv & Ht) Hmin] [(v' & Hv' & Ht') Hmin'].
  pose proof (Hmin r' v' Hv' Ht'). pose proof (Hmin' r v Hv Ht). lia.
Qed.

Lemma find_title_same_titles values heap heap' t :
  same_titles heap heap' →
  find_title values heap' t = find_title values heap t.
Proof.
  intros [_ Ht]. unfold find_title. f_equal.
  apply list_find_ext. intros r. by rewrite Ht.
Qed.

Lemma resolve_same_titles values heap heap' resp :
  same_titles heap heap' → resolve values heap' resp = resolve values heap resp.
Proof.
  intros Hs. unfold resolve.
  destruct (split greater_than resp !! 0%nat) as [winner|]; [|done].
  destruct (split greater_than resp !! 1%nat) as [loser|]; [|done].
  by rewrite !(find_title_same_titles values heap heap' _ Hs).
Qed.

(** A response that names an unknown title is rejected. *)
Lemma resolve_unknown heap resp :
  names_unknown_title heap resp →
  ∃ failure, resolve (seq 0 (length heap)) heap resp = inl failure.
Proof.
  intros (side & Hside & Hno). unfold resolve.
  destruct (split greater_than resp !! 0%nat) as [winner|];
    [|by eexists].
  destruct (split greater_than resp !! 1%nat) as [loser|];
    [|by eexists].
  case_bool_decide; [by eexists|].
  apply find_title_None in Hno.
  destruct Hside as [?|?]; simplify_eq; rewrite Hno; [by eexists|].
  destruct (find_title _ _ (trim winner)); by eexists.
Qed.

(** ** The loop over the responses *)

Lemma apply_response_same_titles now values heap resp heap' :
  apply_response now values heap resp = inr heap' → same_titles heap heap'.
Proof.
  unfold apply_response. destruct (resolve values heap resp) as [|[w l]];
    intros; simplify_eq.
  apply same_titles_adjust, same_titles_refl.
Qed.

Lemma same_titles_trans heap1 heap2 heap3 :
  same_titles heap1 heap2 → same_titles heap2 heap3 → same_titles heap1 heap3.
Proof.
  intros [Hl1 Ht1] [Hl2 Ht2]. split; [congruence|].
  intros r. by rewrite Ht2, Ht1.
Qed.

Lemma apply_responses_same_titles now values heap responses heap' :
  apply_responses now values heap responses = inr heap' →
  same_titles heap heap'.
Proof.
  revert heap. induction responses as [|resp rest IH]; intros heap; simpl.
  { intros; simplify_eq. apply same_titles_refl. }
  destruct (apply_response now values heap resp) as [|heap1] eqn:H1; [done|].
  intros Hrest. eapply same_titles_trans; [|by apply IH].
  by eapply apply_response_same_titles.
Qed.

(** The loop stops at the first response it rejects: the responses before
    it have been applied in memory, the ones after it are not visited. *)
Lemma apply_responses_stops now heap0 heap responses :
  same_titles heap0 heap →
  Exists (names_unknown_title heap0) responses →
  ∃ failure applied bad rest heap1,
    responses = applied ++ bad :: rest ∧
    apply_responses now (seq 0 (length heap0)) heap applied = inr heap1 ∧
    apply_response now (seq 0 (length heap0)) heap1 bad = inl failure ∧
    apply_responses now (seq 0 (length heap0)) heap responses = inl failure.
Proof.
  intros Hs Hex. revert heap Hs.
  induction responses as [|resp rest IH]; intros heap Hs; [by inv Hex|].
  simpl.
  destruct (apply_response now (seq 0 (length heap0)) heap resp)
    as [failure|heap'] eqn:Hresp.
  - exists failure, [], resp, rest, heap. by split_and!.
  - assert (Hs' : same_titles heap0 heap').
    { eapply same_titles_trans; [done|].
      by eapply apply_response_same_titles. }
    inv Hex.
    + exfalso. unfold apply_response in Hresp.
      rewrite (resolve_same_titles _ heap0 heap _ Hs) in Hresp.
      match goal with H : names_unknown_title _ _ |- _ =>
        apply resolve_unknown in H as [failure Hf] end.
      by rewrite Hf in Hresp.
    + match goal with H : Exists _ rest |- _ =>
        destruct (IH H heap' Hs')
          as (failure & applied & bad & rest' & heap1 & -> & Ha & Hb & Hall)
      end.
      exists failure, (resp :: applied), bad, rest', heap1.
      split_and!; [done| |done..]. simpl. by rewrite Hresp.
Qed.

Lemma find_title_in_range n heap t r :
  find_title (seq 0 n) heap t = Some r → (r < n)%nat.
Proof.
  unfold find_title. intros ([k r'] & Hfind & ->)%fmap_Some.
  apply list_find_Some in Hfind as (Hk & _).
  apply lookup_seq in Hk as [-> ?]. simpl. lia.
Qed.

Lemma resolve_in_range n heap resp w l :
  resolve (seq 0 n) heap resp = inr (w, l) → (w < n)%nat ∧ (l < n)%nat.
Proof.
  unfold resolve. intros Hres.
  destruct (split greater_than resp !! 0%nat) as [winner|]; [|done].
  destruct (split greater_than resp !! 1%nat) as [loser|]; [|done].
  case_bool_decide; [done|].
  destruct (find_title _ _ (trim winner)) as [w'|] eqn:Hw; [|done].
  destruct (find_title _ _ (trim loser)) as [l'|] eqn:Hl; [|done].
  simplify_eq. eauto using find_title_in_range.
Qed.

(** A response whose two sides are present, non-empty and carried by some
    record resolves to the first record of each title. *)
Lemma resolve_first heap resp winner loser :
  split greater_than resp !! 0%nat = Some winner →
  split greater_than resp !! 1%nat = Some loser →
  winner ≠ [] → loser ≠ [] →
  has_title heap (trim winner) → has_title heap (trim loser) →
  ∃ w l,
    first_with_title heap (trim winner) w ∧
    first_with_title heap (trim loser) l ∧
    resolve (seq 0 (length heap)) heap resp = inr (w, l).
Proof.
  intros Hw Hl Hwne Hlne Hhw Hhl.
  destruct (find_title_first _ _ Hhw) as (w & Hfw & Hfirstw).
  destruct (find_title_first _ _ Hhl) as (l & Hfl & Hfirstl).
  exists w, l. split_and!; [done..|].
  unfold resolve. rewrite Hw, Hl.
  rewrite bool_decide_eq_false_2 by (intros [?|?]; done).
  by rewrite Hfw, Hfl.
Qed.

(** ** Exact sums and sums of doubles *)

(** On [sample_sums], [number_add] is the addition of binary64. *)
Example number_add_binary64 :
  Forall (λ '(x, y),
            integer_of (PrimFloat.add (double_of x) (double_of y))
            = Some (number_add x y)) sample_sums.
Proof.
  unfold sample_sums.
  repeat (constructor; [vm_compute; reflexivity|]). constructor.
Qed.

Lemma number_add_exact x y : Z.abs (x + y) ≤ 2 ^ 53 → number_add x y = x + y.
Proof.
  intros Hsafe. unfold number_add, round_double.
  by rewrite bool_decide_eq_true_2.
Qed.

Lemma within_le k k' v : k' ≤ k → within k v → within k' v.
Proof. unfold within. lia. Qed.

(** An outcome uses up one unit of the margin of every record. *)
Lemma within_adjust now w l heap k r v v' :
  heap !! r = Some v → adjust now w l heap !! r = Some v' →
  within (k + 1) v → within k v'.
Proof.
  intros Hv Hv' Hk.
  destruct (adjust_lookup now w l heap r v Hv) as (v'' & Hv'' & _ & Hs & Hc & _).
  simplify_eq. unfold within in *. rewrite Hs, Hc.
  repeat case_decide; lia.
Qed.

(** Within the margin of one outcome the program's sums are exact. *)
Lemma adjust_numbers_exact now w l heap :
  (∀ v, heap !! w = Some v ∨ heap !! l = Some v → within 1 v) →
  adjust_numbers now w l heap = adjust now w l heap.
Proof.
  intros Hsafe. apply list_eq. intros r.
  unfold adjust_numbers, adjust.
  destruct (decide (r = w)) as [Hw|Hw], (decide (r = l)) as [Hl|Hl];
    simplify_eq;
    repeat first
      [ rewrite list_lookup_alter_eq | rewrite list_lookup_alter_ne by done ];
    try done.
  - destruct (heap !! l) as [v|] eqn:Hv; [|done].
    assert (Hin : within 1 v) by (apply Hsafe; auto).
    unfold within in Hin; change (2 ^ 53) with 9007199254740992 in Hin.
    simpl. unfold set_updatedAt, set_comparisonCount, set_score; simpl.
    rewrite (number_add_exact (score v) 10)
      by (change (2 ^ 53) with 9007199254740992; lia).
    rewrite (number_add_exact (score v + 10) (-10))
      by (change (2 ^ 53) with 9007199254740992; lia).
    rewrite (number_add_exact (comparisonCount v) 1)
      by (change (2 ^ 53) with 9007199254740992; lia).
    rewrite (number_add_exact (comparisonCount v + 1) 1)
      by (change (2 ^ 53) with 9007199254740992; lia).
    do 2 f_equal; lia.
  - destruct (heap !! w) as [v|] eqn:Hv; [|done].
    assert (Hin : within 1 v) by (apply Hsafe; auto).
    unfold within in Hin; change (2 ^ 53) with 9007199254740992 in Hin.
    simpl. unfold set_updatedAt, set_comparisonCount, set_score; simpl.
    rewrite (number_add_exact (score v) 10)
      by (change (2 ^ 53) with 9007199254740992; lia).
    rewrite (number_add_exact (comparisonCount v) 1)
      by (change (2 ^ 53) with 9007199254740992; lia).
    done.
  - destruct (heap !! l) as [v|] eqn:Hv; [|done].
    assert (Hin : within 1 v) by (apply Hsafe; auto).
    unfold within in Hin; change (2 ^ 53) with 9007199254740992 in Hin.
    simpl. unfold set_updatedAt, set_comparisonCount, set_score; simpl.
    rewrite (number_add_exact (score v) (-10))
      by (change (2 ^ 53) with 9007199254740992; lia).
    rewrite (number_add_exact (comparisonCount v) 1)
      by (change (2 ^ 53) with 9007199254740992; lia).
    done.
Qed.

Lemma apply_response_numbers_exact now values heap resp w l :
  resolve values heap resp = inr (w, l) →
  (∀ v, heap !! w = Some v ∨ heap !! l = Some v → within 1 v) →
  apply_response_numbers now values heap resp
  = apply_response now values heap resp.
Proof.
  intros Hres Hsafe. unfold apply_response_numbers, apply_response.
  rewrite Hres. by rewrite adjust_numbers_exact.
Qed.

(** With a margin of one outcome per response the whole loop is exact. *)
Lemma apply_responses_numbers_exact now values heap responses :
  Forall (within (Z.of_nat (length responses))) heap →
  apply_responses_numbers now values heap responses
  = apply_responses now values heap responses.
Proof.
  revert heap. induction responses as [|resp rest IH]; intros heap Hsafe;
    [done|].
  cbn [apply_responses_numbers apply_responses].
  assert (Hone : ∀ r v, heap !! r = Some v → within 1 v).
  { intros r v Hv. eapply within_le; [|by eapply Forall_lookup_1].
    simpl length. lia. }
  unfold apply_response_numbers, apply_response.
  destruct (resolve values heap resp) as [f|[w l]] eqn:Hres; [done|].
  rewrite adjust_numbers_exact by (intros v [Hv|Hv]; eauto).
  apply IH. apply Forall_lookup_2. intros r v' Hv'.
  assert (Hr : (r < length heap)%nat).
  { rewrite <-(adjust_length now w l). by eapply lookup_lt_Some. }
  destruct (lookup_lt_is_Some_2 heap r Hr) as [v Hv].
  apply (within_adjust now w l heap _ r v v' Hv Hv').
  replace (Z.of_nat (length rest) + 1) with (Z.of_nat (length (resp :: rest)))
    by (simpl length; lia).
  by eapply Forall_lookup_1.
Qed.

Lemma update_scores_numbers_exact disk text now :
  Forall (within (Z.of_nat (length (split comma text)))) disk →
  update_scores_numbers disk (Some text) now
  = update_scores disk (Some text) now.
Proof.
  intros Hsafe. destruct text as [|c text]; [done|].
  unfold update_scores_numbers, update_scores, readValues.
  by rewrite apply_responses_numbers_exact.
Qed.

(** Whatever the sums round to, an outcome keeps the fields it does not
    assign, and with them the titles that later responses look up. *)
Lemma adjust_numbers_length now w l heap :
  length (adjust_numbers now w l heap) = length heap.
Proof. unfold adjust_numbers. by rewrite !length_alter. Qed.

Lemma adjust_numbers_identity now w l heap r v :
  heap !! r = Some v →
  ∃ v', adjust_numbers now w l heap !! r = Some v' ∧ same_identity v v'.
Proof.
  intros Hv. unfold adjust_numbers, same_identity.
  destruct (decide (r = w)) as [Hw|Hw], (decide (r = l)) as [Hl|Hl];
    simplify_eq;
    repeat first
      [ rewrite list_lookup_alter_eq | rewrite list_lookup_alter_ne by done ];
    rewrite Hv; simpl; eexists; (split; [done|]); simpl; done.
Qed.

Lemma adjust_numbers_title now w l heap r :
  title (adjust_numbers now w l heap !!! r) = title (heap !!! r).
Proof.
  rewrite !list_lookup_total_alt.
  destruct (heap !! r) as [v|] eqn:Hv.
  - destruct (adjust_numbers_identity now w l heap r v Hv)
      as (v' & -> & Hid).
    simpl. apply Hid.
  - rewrite (lookup_ge_None_2 (adjust_numbers now w l heap)); [done|].
    rewrite adjust_numbers_length. by apply lookup_ge_None.
Qed.

Lemma same_titles_adjust_numbers now w l heap heap' :
  same_titles heap heap' → same_titles heap (adjust_numbers now w l heap').
Proof.
  intros [Hlen Ht]. split; [by rewrite adjust_numbers_length|].
  intros r. by rewrite adjust_numbers_title.
Qed.

(** ** The claims about [update-scores] *)

(** C1. If some response of the batch names a title that no record
    carries, the command ends in an error and the file is what it was
    before: no record's score, comparisonCount or updatedAt is written.
    The error is that of the first response the loop rejects; the
    responses after it are not visited. (An empty [--responses] text is
    refused before the loop.) *)
Theorem update_scores_all_or_nothing disk text now :
  Exists (names_unknown_title disk) (split comma text) →
  ∃ failure,
    update_scores disk (Some text) now = mkExit (inl failure) disk ∧
    (text = [] ∨
     ∃ applied bad rest heap,
       split comma text = applied ++ bad :: rest ∧
       apply_responses now (seq 0 (length disk)) disk applied = inr heap ∧
       apply_response now (seq 0 (length disk)) heap bad = inl failure).
Proof.
  intros Hex. destruct text as [|c text].
  { exists MissingResponses. split; [done|by left]. }
  destruct (apply_responses_stops now disk disk _ (same_titles_refl disk) Hex)
    as (failure & applied & bad & rest & heap & Hsplit & Ha & Hb & Hall).
  exists failure. split.
  - unfold update_scores, readValues. by rewrite Hall.
  - right. by exists applied, bad, rest, heap.
Qed.

Lemma update_scores_all_or_nothing_witness :
  Exists (names_unknown_title sample_disk) (split comma sample_batch) ∧
  ∃ failure,
    update_scores sample_disk (Some sample_batch) sample_now
    = mkExit (inl failure) sample_disk ∧
    (sample_batch = [] ∨
     ∃ applied bad rest heap,
       split comma sample_batch = applied ++ bad :: rest ∧
       apply_responses sample_now (seq 0 (length sample_disk)) sample_disk
         applied = inr heap ∧
       apply_response sample_now (seq 0 (length sample_disk)) heap bad
       = inl failure).
Proof.
  assert (Hex : Exists (names_unknown_title sample_disk)
                  (split comma sample_batch)).
  { assert (Hs : split comma sample_batch
                 = [js "Life>Health"; js "Life>Wealth"; js "Reason>Purpose"])
      by (vm_compute; reflexivity).
    rewrite Hs. apply Exists_cons_tl, Exists_cons_hd.
    exists (js "Wealth"). split; [right; vm_compute; reflexivity|].
    intros (v & Hv & Ht). vm_compute in Ht.
    repeat (apply elem_of_cons in Hv as [->|Hv]; [discriminate Ht|]).
    by apply elem_of_nil in Hv. }
  split; [exact Hex|].
  exact (update_scores_all_or_nothing sample_disk _ sample_now Hex).
Defined.

(** C4, as stated, fails: the score of "Life" in [huge_disk] is the
    double 2^54, the sum 2^54 + 10 is not a double and rounds to 2^54 + 8,
    so the applied outcome "Life>Health" adds 8 to the score of the winner,
    not 10. (The loser goes from 2^54 + 4 to 2^54 - 6, which is a
    double.) *)
Lemma outcome_adds_eight :
  resolve (seq 0 (length huge_disk)) huge_disk huge_response
  = inr (0%nat, 1%nat) ∧
  apply_response_numbers sample_now (seq 0 (length huge_disk)) huge_disk
    huge_response
  = inr [ mkValue (js "Life") (js "Life") (2 ^ 54 + 8) 3 [] [] sample_now [];
          mkValue (js "Health") (js "Health") (2 ^ 54 - 6) 1 [] []
            sample_now [] ] ∧
  disk_after (update_scores_numbers huge_disk (Some huge_response) sample_now)
  = [ mkValue (js "Life") (js "Life") (2 ^ 54 + 8) 3 [] [] sample_now [];
      mkValue (js "Health") (js "Health") (2 ^ 54 - 6) 1 [] []
        sample_now [] ] ∧
  ¬ ∃ heap' vw vw',
      apply_response_numbers sample_now (seq 0 (length huge_disk)) huge_disk
        huge_response = inr heap' ∧
      huge_disk !! 0%nat = Some vw ∧ heap' !! 0%nat = Some vw' ∧
      score vw' = score vw + 10.
Proof.
  assert (Happ : apply_response_numbers sample_now (seq 0 (length huge_disk))
                   huge_disk huge_response
                 = inr [ mkValue (js "Life") (js "Life") (2 ^ 54 + 8) 3 []
                           [] sample_now [];
                         mkValue (js "Health") (js "Health") (2 ^ 54 - 6) 1
                           [] [] sample_now [] ])
    by (vm_compute; reflexivity).
  split_and!.
  - vm_compute; reflexivity.
  - exact Happ.
  - vm_compute; reflexivity.
  - intros (heap' & vw & vw' & Hrun & Hvw & Hvw' & Hs).
    rewrite Happ in Hrun. injection Hrun as <-.
    vm_compute in Hvw, Hvw'. injection Hvw as <-. injection Hvw' as <-.
    vm_compute in Hs. discriminate Hs.
Qed.

(** C4, amended. An applied outcome adds exactly 10 to the score of the
    winner record and subtracts exactly 10 from the score of the loser
    record, adds 1 to the comparisonCount of each, sets the updatedAt of
    each to the supplied timestamp, and changes nothing else, provided the
    scores and comparisonCounts of these two records are integers that
    leave the margin of one outcome below 2^53 in magnitude. Consequently
    the same outcome applied twice, winner and loser being two records with
    the margin of two outcomes, moves the winner by +20 and +2 and the
    loser by -20 and +2. *)
Theorem outcome_applied heap now resp w l :
  resolve (seq 0 (length heap)) heap resp = inr (w, l) →
  (∀ v, heap !! w = Some v ∨ heap !! l = Some v → within 1 v) →
  ∃ heap',
    apply_response_numbers now (seq 0 (length heap)) heap resp = inr heap' ∧
    length heap' = length heap ∧
    is_Some (heap !! w) ∧ is_Some (heap !! l) ∧
    (∀ r v, heap !! r = Some v →
       ∃ v', heap' !! r = Some v' ∧
         same_identity v v' ∧
         score v' = score v + (if decide (r = w) then 10 else 0)
                            - (if decide (r = l) then 10 else 0) ∧
         comparisonCount v' = comparisonCount v
                              + (if decide (r = w) then 1 else 0)
                              + (if decide (r = l) then 1 else 0) ∧
         updatedAt v' = (if decide (r = w ∨ r = l) then now
                         else updatedAt v)) ∧
    (w ≠ l →
     (∀ v, heap !! w = Some v ∨ heap !! l = Some v → within 2 v) →
     ∃ heap'' vw vl vw' vl',
       apply_responses_numbers now (seq 0 (length heap)) heap [resp; resp]
       = inr heap'' ∧
       heap !! w = Some vw ∧ heap !! l = Some vl ∧
       heap'' !! w = Some vw' ∧ heap'' !! l = Some vl' ∧
       score vw' = score vw + 20 ∧
       comparisonCount vw' = comparisonCount vw + 2 ∧
       score vl' = score vl - 20 ∧
       comparisonCount vl' = comparisonCount vl + 2).
Proof.
  intros Hres Hsafe.
  destruct (resolve_in_range _ _ _ _ _ Hres) as [Hw Hl].
  exists (adjust now w l heap).
  assert (Happ : apply_response_numbers now (seq 0 (length heap)) heap resp
                 = inr (adjust now w l heap)).
  { rewrite (apply_response_numbers_exact _ _ _ _ w l Hres Hsafe).
    unfold apply_response. by rewrite Hres. }
  split_and!.
  - done.
  - apply adjust_length.
  - by apply lookup_lt_is_Some_2.
  - by apply lookup_lt_is_Some_2.
  - intros r v Hv. by apply adjust_lookup.
  - intros Hne Hsafe2.
    destruct (lookup_lt_is_Some_2 heap w Hw) as [vw Hvw].
    destruct (lookup_lt_is_Some_2 heap l Hl) as [vl Hvl].
    destruct (adjust_lookup now w l heap w vw Hvw)
      as (vw1 & Hvw1 & _ & Hsw1 & Hcw1 & _).
    destruct (adjust_lookup now w l heap l vl Hvl)
      as (vl1 & Hvl1 & _ & Hsl1 & Hcl1 & _).
    destruct (adjust_lookup now w l _ w vw1 Hvw1)
      as (vw2 & Hvw2 & _ & Hsw2 & Hcw2 & _).
    destruct (adjust_lookup now w l _ l vl1 Hvl1)
      as (vl2 & Hvl2 & _ & Hsl2 & Hcl2 & _).
    exists (adjust now w l (adjust now w l heap)), vw, vl, vw2, vl2.
    assert (Hres1 : resolve (seq 0 (length heap)) (adjust now w l heap) resp
                    = inr (w, l)).
    { rewrite (resolve_same_titles _ heap), Hres; [done|].
      apply same_titles_adjust, same_titles_refl. }
    split_and!; try done.
    + cbn [apply_responses_numbers]. rewrite Happ.
      rewrite (apply_response_numbers_exact _ _ _ _ w l Hres1).
      * unfold apply_response. by rewrite Hres1.
      * intros v [Hv|Hv];
          [ apply (within_adjust now w l heap 1 w vw v Hvw Hv)
          | apply (within_adjust now w l heap 1 l vl v Hvl Hv) ];
          apply Hsafe2; auto.
    + repeat case_decide; try done; lia.
    + repeat case_decide; try done; lia.
    + repeat case_decide; try done; lia.
    + repeat case_decide; try done; lia.
Qed.

Lemma outcome_applied_witness :
  (resolve (seq 0 (length sample_disk)) sample_disk sample_response
   = inr (0%nat, 1%nat) ∧
   (∀ v, sample_disk !! 0%nat = Some v ∨ sample_disk !! 1%nat = Some v →
         within 1 v)) ∧
  ∃ heap',
    apply_response_numbers sample_now (seq 0 (length sample_disk))
      sample_disk sample_response = inr heap' ∧
    length heap' = length sample_disk ∧
    is_Some (sample_disk !! 0%nat) ∧ is_Some (sample_disk !! 1%nat) ∧
    (∀ r v, sample_disk !! r = Some v →
       ∃ v', heap' !! r = Some v' ∧
         same_identity v v' ∧
         score v' = score v + (if decide (r = 0%nat) then 10 else 0)
                            - (if decide (r = 1%nat) then 10 else 0) ∧
         comparisonCount v' = comparisonCount v
                              + (if decide (r = 0%nat) then 1 else 0)
                              + (if decide (r = 1%nat) then 1 else 0) ∧
         updatedAt v' = (if decide (r = 0%nat ∨ r = 1%nat) then sample_now
                         else updatedAt v)) ∧
    (0%nat ≠ 1%nat →
     (∀ v, sample_disk !! 0%nat = Some v ∨ sample_disk !! 1%nat = Some v →
           within 2 v) →
     ∃ heap'' vw vl vw' vl',
       apply_responses_numbers sample_now (seq 0 (length sample_disk))
         sample_disk [sample_response; sample_response] = inr heap'' ∧
       sample_disk !! 0%nat = Some vw ∧ sample_disk !! 1%nat = Some vl ∧
       heap'' !! 0%nat = Some vw' ∧ heap'' !! 1%nat = Some vl' ∧
       score vw' = score vw + 20 ∧
       comparisonCount vw' = comparisonCount vw + 2 ∧
       score vl' = score vl - 20 ∧
       comparisonCount vl' = comparisonCount vl + 2).
Proof.
  assert (Hres : resolve (seq 0 (length sample_disk)) sample_disk
                   sample_response = inr (0%nat, 1%nat))
    by (vm_compute; reflexivity).
  assert (Hsafe : ∀ v, sample_disk !! 0%nat = Some v
                       ∨ sample_disk !! 1%nat = Some v → within 1 v).
  { intros v [Hv|Hv]; vm_compute in Hv; simplify_eq;
      split; vm_compute; discriminate. }
  split; [split; [exact Hres|exact Hsafe]|].
  exact (outcome_applied sample_disk sample_now sample_response 0 1 Hres
           Hsafe).
Defined.





(** C6, as stated, fails: in [duplicate_disk] two records carry the title
    "Life", and the response "Life>Health" is not rejected. The command
    succeeds and writes the update of the first "Life". *)
Lemma duplicate_title_not_rejected :
  ambiguous duplicate_disk (trim (js "Life")) ∧
  split greater_than duplicate_response !! 0%nat = Some (js "Life") ∧
  update_scores duplicate_disk (Some duplicate_response) sample_now
  = mkExit (inr duplicate_disk_updated) duplicate_disk_updated ∧
  ¬ ∃ winner loser,
      outcome (update_scores duplicate_disk (Some duplicate_response)
                 sample_now)
      = inl (UnknownValue winner loser).
Proof.
  split_and!.
  - exists 0%nat, 2%nat, (sample_value "Life" 1520 2),
      (sample_value "Life" 1480 1).
    split_and!; [lia|vm_compute; reflexivity..].
  - vm_compute; reflexivity.
  - vm_compute; reflexivity.
  - intros (winner & loser & H). vm_compute in H. discriminate H.
Qed.

(** C6, amended. A response whose titles are each carried by at least one
    record, however many, is not rejected: each title resolves to the first
    record, in store order, that carries it, and the update is applied to
    those two records. *)
Theorem ambiguous_title_resolves_first heap now resp winner loser :
  split greater_than resp !! 0%nat = Some winner →
  split greater_than resp !! 1%nat = Some loser →
  winner ≠ [] → loser ≠ [] →
  has_title heap (trim winner) → has_title heap (trim loser) →
  ∃ w l,
    first_with_title heap (trim winner) w ∧
    first_with_title heap (trim loser) l ∧
    apply_response now (seq 0 (length heap)) heap resp
    = inr (adjust now w l heap).
Proof.
  intros Hw Hl Hwne Hlne Hhw Hhl.
  destruct (resolve_first heap resp winner loser Hw Hl Hwne Hlne Hhw Hhl)
    as (w & l & Hfw & Hfl & Hres).
  exists w, l. split_and!; [done..|].
  unfold apply_response. by rewrite Hres.
Qed.

Lemma ambiguous_title_resolves_first_witness :
  (split greater_than duplicate_response !! 0%nat = Some (js "Life") ∧
   split greater_than duplicate_response !! 1%nat = Some (js "Health") ∧
   js "Life" ≠ [] ∧ js "Health" ≠ [] ∧
   has_title duplicate_disk (trim (js "Life")) ∧
   has_title duplicate_disk (trim (js "Health"))) ∧
  ∃ w l,
    first_with_title duplicate_disk (trim (js "Life")) w ∧
    first_with_title duplicate_disk (trim (js "Health")) l ∧
    apply_response sample_now (seq 0 (length duplicate_disk)) duplicate_disk
      duplicate_response
    = inr (adjust sample_now w l duplicate_disk).
Proof.
  assert (Hlife : has_title duplicate_disk (trim (js "Life"))).
  { exists (sample_value "Life" 1520 2).
    split; [apply elem_of_cons; by left|vm_compute; reflexivity]. }
  assert (Hhealth : has_title duplicate_disk (trim (js "Health"))).
  { exists (sample_value "Health" 1500 0).
    split; [apply elem_of_cons; right; apply elem_of_cons; by left
           |vm_compute; reflexivity]. }
  split.
  - split_and!; try (vm_compute; reflexivity); try discriminate; done.
  - apply (ambiguous_title_resolves_first duplicate_disk sample_now
             duplicate_response (js "Life") (js "Health"));
      try (vm_compute; reflexivity); try discriminate; done.
Defined.

(** * Further properties of the [pairs] command *)

(** Every entry of the returned pairs is one of the candidates. *)
Lemma emit_pairs_subseteq {A} num (c : list A) : paired (emit_pairs num c) ⊆ c.
Proof. rewrite emit_pairs_paired. apply subseteq_take. Qed.

(** X1. With at least two records and a requested number of pairs that is
    zero or negative, the command succeeds and returns no pair. *)
Theorem pairs_nonpositive_num disk num rnd :
  (2 ≤ length disk)%nat → num ≤ 0 →
  ∃ run, outcome (pairs_action disk num rnd) = inr run ∧ run_pairs run = [].
Proof.
  intros Hlen Hnum.
  destruct (pairs_action_run disk num rnd Hlen) as (m & pool & _ & _ & ->).
  eexists. split; [done|]. simpl.
  apply length_zero_iff_nil. rewrite emit_pairs_length. lia.
Qed.

Lemma pairs_nonpositive_num_witness :
  ((2 ≤ length sample_disk)%nat ∧ 0 ≤ 0) ∧
  ∃ run, outcome (pairs_action sample_disk 0 half_draws) = inr run
         ∧ run_pairs run = [].
Proof.
  split; [split; [simpl|]; lia|].
  apply (pairs_nonpositive_num sample_disk 0 half_draws); [simpl|]; lia.
Defined.

(** The candidates are a lowest-count part of the records. *)
Lemma select_candidates_lowest heap num pool r r' :
  (0 < length heap)%nat →
  select_candidates heap (sort_by (count_of heap) (seq 0 (length heap))) num
  = Some pool →
  r ∈ pool → (r' < length heap)%nat → r' ∉ pool →
  count_of heap r ≤ count_of heap r'.
Proof.
  intros Hlen Hpool Hr Hr' Hout.
  destruct (minimum_count_is_Some heap Hlen) as [m Hm].
  destruct (select_candidates_cases heap num m Hm)
    as (pool' & Hpool' & Hall & Hcohort & Hext).
  simpl in *. simplify_eq.
  assert (Hin : r' ∈ sort_by (count_of heap) (seq 0 (length heap))).
  { rewrite sorted_perm. apply elem_of_seq. lia. }
  destruct (decide (3 ≤ m)) as [?|Hm3]; [by rewrite Hall in Hout|].
  destruct (decide (2 * num ≤ Z.of_nat (length (cohort heap m)))).
  - rewrite Hcohort in Hr by lia.
    apply list_elem_of_filter in Hr as [-> _].
    apply minimum_count_least in Hm as [_ Hleast].
    rewrite Forall_forall in Hleast. apply Hleast.
    by apply list_elem_of_lookup_total_2.
  - rewrite Hext in Hr, Hout by lia.
    pose proof (sorted_lowest_first heap) as Hs.
    rewrite <-(take_drop (Z.to_nat (2 * num))
                 (sort_by (count_of heap) (seq 0 (length heap)))) in Hs, Hin.
    apply elem_of_app in Hin as [?|Hin]; [done|].
    eapply (key_then_le _ lt), StronglySorted_app_1_elem_of; done.
Qed.

(** X2. The records of the returned pairs are candidates, and no record
    outside the candidate pool has been compared fewer times than a record
    inside it. *)
Theorem pairs_least_compared disk num rnd :
  (2 ≤ length disk)%nat →
  ∃ run, outcome (pairs_action disk num rnd) = inr run ∧
    (∀ r, r ∈ paired (run_pairs run) → r ∈ run_pool run) ∧
    (∀ r r', r ∈ run_pool run → (r' < length disk)%nat →
             r' ∉ run_pool run →
             comparisonCount (disk !!! r) ≤ comparisonCount (disk !!! r')).
Proof.
  intros Hlen.
  destruct (pairs_action_run disk num rnd Hlen)
    as (m & pool & _ & Hpool & ->).
  eexists. split; [done|]. simpl. split.
  - intros r Hr. apply emit_pairs_subseteq in Hr.
    by rewrite shuffle_perm in Hr.
  - intros r r' Hr Hr' Hout.
    apply (select_candidates_lowest disk num pool r r'); [lia|done..].
Qed.

Lemma pairs_least_compared_witness :
  (2 ≤ length sample_disk)%nat ∧
  ∃ run, outcome (pairs_action sample_disk 1 half_draws) = inr run ∧
    (∀ r, r ∈ paired (run_pairs run) → r ∈ run_pool run) ∧
    (∀ r r', r ∈ run_pool run → (r' < length sample_disk)%nat →
             r' ∉ run_pool run →
             comparisonCount (sample_disk !!! r)
             ≤ comparisonCount (sample_disk !!! r')).
Proof.
  split; [simpl; lia|].
  apply (pairs_least_compared sample_disk 1 half_draws). simpl; lia.
Defined.

(** X3. When twice the requested number of pairs reaches the number of
    records, every record is a candidate and floor(records / 2) pairs are
    returned; with an even number of records every record appears in
    exactly one pair. *)
Theorem pairs_cover_everyone disk num rnd :
  (2 ≤ length disk)%nat → Z.of_nat (length disk) ≤ 2 * num →
  ∃ run, outcome (pairs_action disk num rnd) = inr run ∧
    run_pool run ≡ₚ seq 0 (length disk) ∧
    length (run_pairs run) = (length disk / 2)%nat ∧
    (Nat.Even (length disk) →
     paired (run_pairs run) ≡ₚ seq 0 (length disk)).
Proof.
  intros Hlen Hnum.
  destruct (pairs_action_run disk num rnd Hlen)
    as (m & pool & Hm & Hpool & ->).
  destruct (select_candidates_cases disk num m Hm)
    as (pool' & Hpool' & Hall & Hcohort & Hext).
  simpl in *. simplify_eq.
  assert (Hperm : pool ≡ₚ seq 0 (length disk)).
  { destruct (decide (3 ≤ m)); [rewrite Hall by done; apply sorted_perm|].
    destruct (decide (2 * num ≤ Z.of_nat (length (cohort disk m)))).
    - rewrite Hcohort by lia. rewrite <-(sorted_perm disk).
      apply submseteq_length_Permutation.
      + apply sublist_submseteq, cohort_sublist.
      + rewrite sorted_length. lia.
    - rewrite Hext, take_ge by (rewrite ?sorted_length; lia).
      apply sorted_perm. }
  assert (Hpl : length pool = length disk) by (by rewrite Hperm, length_seq).
  assert (Hcount : length (emit_pairs num (shuffle rnd pool))
                   = (length disk / 2)%nat).
  { rewrite emit_pairs_length, shuffle_length, Hpl.
    rewrite <-(Nat2Z.id (length disk / 2)). f_equal.
    rewrite Nat2Z.inj_div. change (Z.of_nat 2) with 2.
    assert (Z.of_nat (length disk) / 2 ≤ num); [|lia].
    apply Z.div_le_upper_bound; lia. }
  eexists. split; [done|]. simpl. split_and!; [done..|].
  intros [k Hk]. rewrite emit_pairs_paired, Hcount.
  rewrite take_ge.
  - by rewrite shuffle_perm.
  - rewrite shuffle_length, Hpl, Hk.
    replace (2 * k)%nat with (k * 2)%nat by lia.
    rewrite Nat.div_mul by lia. lia.
Qed.

Lemma pairs_cover_everyone_witness :
  ((2 ≤ length ten_fresh)%nat ∧ Z.of_nat (length ten_fresh) ≤ 2 * 5) ∧
  ∃ run, outcome (pairs_action ten_fresh 5 half_draws) = inr run ∧
    run_pool run ≡ₚ seq 0 (length ten_fresh) ∧
    length (run_pairs run) = (length ten_fresh / 2)%nat ∧
    (Nat.Even (length ten_fresh) →
     paired (run_pairs run) ≡ₚ seq 0 (length ten_fresh)).
Proof.
  split; [split; simpl; lia|].
  apply (pairs_cover_everyone ten_fresh 5 half_draws); simpl; lia.
Defined.

(** * Properties of [add], [edit], [rationale] and [remove] *)

(** [add] writes the old records back unchanged, followed by the new one. *)
Lemma add_action_app disk new_id title tags desc now :
  add_action disk new_id title tags desc now
  = disk ++ [newValue new_id title tags desc now].
Proof.
  unfold add_action, readValues.
  rewrite <-(writeValues_all (disk ++ [_])) at 2.
  f_equal. rewrite length_app. simpl.
  by rewrite Nat.add_1_r, seq_S.
Qed.

Lemma minimum_count_unique records m :
  (∃ v, v ∈ records ∧ comparisonCount v = m) →
  Forall (λ v, m ≤ comparisonCount v) records →
  minimum_count records = Some m.
Proof.
  intros (v & Hv & Hcv) Hall.
  destruct (minimum_count_is_Some records) as [k Hk].
  { destruct records; [by apply elem_of_nil in Hv|simpl; lia]. }
  rewrite Hk. f_equal.
  apply minimum_count_least in Hk as [(u & Hu & Hcu) Hleast].
  rewrite Forall_forall in Hall, Hleast.
  specialize (Hall u Hu). specialize (Hleast v Hv). lia.
Qed.

(** X4. A value that [add] has just appended to a store whose counts are
    not negative is one of the candidates of the next [pairs] run, for
    every requested number of pairs of at least 1. *)
Theorem added_value_is_candidate disk new_id title tags desc now num rnd :
  (1 ≤ length disk)%nat →
  Forall (λ v, 0 ≤ comparisonCount v) disk →
  1 ≤ num →
  ∃ run,
    outcome (pairs_action (add_action disk new_id title tags desc now)
               num rnd) = inr run
    ∧ length disk ∈ run_pool run.
Proof.
  intros Hlen Hcounts Hnum. rewrite add_action_app.
  set (new := newValue new_id title tags desc now).
  set (disk' := disk ++ [new]).
  assert (Hlen' : length disk' = S (length disk)).
  { unfold disk'. rewrite length_app. simpl. lia. }
  assert (Hnew : disk' !!! length disk = new).
  { apply list_lookup_total_correct. unfold disk'.
    by rewrite lookup_app_r, Nat.sub_diag by lia. }
  assert (Hm : minimum_count disk' = Some 0).
  { apply minimum_count_unique.
    - exists new. split; [|done]. unfold disk'.
      apply elem_of_app. right. by left.
    - unfold disk'. apply Forall_app. split; [done|].
      by repeat constructor. }
  destruct (pairs_action_run disk' num rnd) as (m & pool & Hm' & Hpool & ->);
    [lia|].
  simplify_eq. eexists. split; [done|]. simpl.
  destruct (select_candidates_cases disk' num 0 Hm)
    as (pool' & Hpool' & _ & Hcohort & Hext).
  simpl in *. simplify_eq.
  assert (Hin : length disk ∈ cohort disk' 0).
  { apply list_elem_of_filter. split.
    - unfold count_of. by rewrite Hnew.
    - apply elem_of_seq. lia. }
  destruct (decide (2 * num ≤ Z.of_nat (length (cohort disk' 0))))
    as [?|Hsmall]; [by rewrite Hcohort by lia|].
  destruct (decide (length disk ∈ pool)) as [|Hout]; [done|]. exfalso.
  assert (Hsub : pool ⊆ cohort disk' 0).
  { intros r Hr. apply list_elem_of_filter.
    assert (Hr' : (r < length disk')%nat).
    { eapply elem_of_sublist in Hr;
        [|by eapply select_candidates_sublist].
      rewrite sorted_perm in Hr. apply elem_of_seq in Hr. lia. }
    split; [|apply elem_of_seq; lia].
    pose proof (select_candidates_lowest disk' num pool r (length disk)
                  ltac:(lia) Hpool Hr ltac:(lia) Hout) as Hle.
    unfold count_of in Hle at 2. rewrite Hnew in Hle. simpl in Hle.
    apply minimum_count_least in Hm as [_ Hleast].
    rewrite Forall_forall in Hleast.
    specialize (Hleast (disk' !!! r)
                  (list_elem_of_lookup_total_2 _ _ Hr')).
    unfold count_of in *. lia. }
  assert (Hnd : NoDup pool).
  { eapply sublist_NoDup; [apply sorted_NoDup|].
    by eapply select_candidates_sublist. }
  pose proof (submseteq_length _ _ (NoDup_submseteq _ _ Hnd Hsub)) as Hle.
  assert (Hpl : length pool = Z.to_nat (2 * num)).
  { rewrite Hext by lia. apply length_take_le.
    rewrite sorted_length.
    destruct (decide (Z.to_nat (2 * num) ≤ length disk')%nat); [done|].
    exfalso. apply Hout. rewrite Hext, take_ge by
      (rewrite ?sorted_length; lia).
    rewrite sorted_perm. apply elem_of_seq. lia. }
  lia.
Qed.

Lemma added_value_is_candidate_witness :
  ((1 ≤ length sample_disk)%nat ∧
   Forall (λ v, 0 ≤ comparisonCount v) sample_disk ∧ 1 ≤ 1) ∧
  ∃ run,
    outcome (pairs_action
               (add_action sample_disk (js "20260101-joy") (js "Joy")
                  None None sample_now) 1 half_draws) = inr run
    ∧ length sample_disk ∈ run_pool run.
Proof.
  assert (Hc : Forall (λ v, 0 ≤ comparisonCount v) sample_disk).
  { repeat constructor; simpl; lia. }
  split; [split_and!; [simpl; lia|exact Hc|lia]|].
  apply (added_value_is_candidate sample_disk (js "20260101-joy") (js "Joy")
           None None sample_now 1 half_draws); [simpl; lia|exact Hc|lia].
Defined.

(** Looking a field value up in the array that [readValues] returned. *)
Section FindField.
Variable field : Value → jsstring.
Variable wanted : jsstring.
Variable heap : list Value.

Lemma seq_find_None :
  list_find (λ r, field (heap !!! r) = wanted) (seq 0 (length heap)) = None
  ↔ ∀ v, v ∈ heap → field v ≠ wanted.
Proof.
  rewrite list_find_None, Forall_forall. split.
  - intros Hno v [r Hr]%list_elem_of_lookup Hv.
    apply (Hno r).
    + apply elem_of_seq. apply lookup_lt_Some in Hr. lia.
    + by rewrite (list_lookup_total_correct _ _ _ Hr).
  - intros Hno r [_ Hr]%elem_of_seq. apply Hno.
    apply list_elem_of_lookup_total_2. lia.
Qed.

(** The first match splits the store around it. *)
Lemma seq_find_Some k r :
  list_find (λ r, field (heap !!! r) = wanted) (seq 0 (length heap))
  = Some (k, r)
  ↔ k = r ∧ ∃ before v after,
      heap = before ++ v :: after ∧ length before = r ∧ field v = wanted
      ∧ ∀ u, u ∈ before → field u ≠ wanted.
Proof.
  rewrite list_find_Some. split.
  - intros (Hk & Hr & Hmin).
    apply lookup_seq in Hk as [-> Hk]. simpl in *. split; [done|].
    destruct (lookup_lt_is_Some_2 heap k Hk) as [v Hv].
    exists (take k heap), v, (drop (S k) heap). split_and!.
    + by rewrite take_drop_middle.
    + rewrite length_take. lia.
    + by rewrite (list_lookup_total_correct _ _ _ Hv) in Hr.
    + intros u [j Hj]%list_elem_of_lookup Hu.
      apply lookup_take_Some in Hj as [Hj Hjk].
      apply (Hmin j j); [|done|].
      * apply lookup_seq. split; [done|lia].
      * by rewrite (list_lookup_total_correct _ _ _ Hj).
  - intros (-> & before & v & after & -> & <- & Hv & Hmin).
    assert (Hlook : (before ++ v :: after) !! length before = Some v).
    { by rewrite lookup_app_r, Nat.sub_diag by lia. }
    split_and!.
    + apply lookup_seq. split; [done|].
      rewrite length_app. simpl. lia.
    + by rewrite (list_lookup_total_correct _ _ _ Hlook).
    + intros j y Hj Hlt Hy. apply lookup_seq in Hj as [-> _]. simpl in *.
      rewrite list_lookup_total_alt, lookup_app_l in Hy by done.
      destruct (before !! j) as [u|] eqn:Hu;
        [|by apply lookup_ge_None in Hu; lia].
      simpl in Hy. eapply Hmin; [|done]. by eapply list_elem_of_lookup_2.
Qed.
End FindField.

Lemma writeValues_same_length heap n :
  length heap = n → writeValues heap (seq 0 n) = heap.
Proof. intros <-. apply writeValues_all. Qed.

Lemma writeValues_delete heap r :
  writeValues heap (delete r (seq 0 (length heap))) = delete r heap.
Proof.
  unfold writeValues. apply list_eq. intros j.
  rewrite list_lookup_fmap.
  destruct (decide (j < r)%nat).
  - rewrite !list_lookup_delete_lt by done.
    destruct (decide (j < length heap)%nat).
    + rewrite lookup_seq_lt by done. simpl.
      by rewrite list_lookup_lookup_total_lt.
    + by rewrite lookup_seq_ge, lookup_ge_None_2 by lia.
  - rewrite !list_lookup_delete_ge by lia.
    destruct (decide (S j < length heap)%nat).
    + rewrite lookup_seq_lt by done. simpl.
      by rewrite list_lookup_lookup_total_lt.
    + by rewrite lookup_seq_ge, lookup_ge_None_2 by lia.
Qed.

Lemma alter_middle {A} (f : A → A) (before : list A) v after :
  alter f (length before) (before ++ v :: after) = before ++ f v :: after.
Proof. by rewrite alter_app_r_alt, Nat.sub_diag by lia. Qed.

Lemma unknown_id_not_found disk wanted new_title new_tags new_desc update now :
  (∀ v, v ∈ disk → id v ≠ wanted) →
  edit_action disk wanted new_title new_tags new_desc now
  = mkEnded (inl (ValueIdNotFound wanted)) disk
  ∧ rationale_action disk wanted update now
    = mkEnded (inl (ValueIdNotFound wanted)) disk
  ∧ remove_action disk wanted = mkEnded (inl (ValueIdNotFound wanted)) disk.
Proof.
  intros Hno. apply (seq_find_None id) in Hno.
  unfold edit_action, rationale_action, remove_action, readValues,
    find_id, findIndex_id.
  by rewrite Hno.
Qed.

(** X5. An id that no record carries makes [edit], [rationale] and
    [remove] end in the not-found error, whatever their options, and
    leaves the file as it was. *)
Theorem unknown_id_rejected disk wanted new_title new_tags new_desc update now :
  (∀ v, v ∈ disk → id v ≠ wanted) →
  edit_action disk wanted new_title new_tags new_desc now
  = mkEnded (inl (ValueIdNotFound wanted)) disk
  ∧ rationale_action disk wanted update now
    = mkEnded (inl (ValueIdNotFound wanted)) disk
  ∧ remove_action disk wanted = mkEnded (inl (ValueIdNotFound wanted)) disk.
Proof. exact (unknown_id_not_found disk wanted new_title new_tags new_desc update now). Qed.

Lemma unknown_id_rejected_witness :
  (∀ v, v ∈ sample_two → id v ≠ js "Wealth") ∧
  edit_action sample_two (js "Wealth") None None None sample_now
  = mkEnded (inl (ValueIdNotFound (js "Wealth"))) sample_two
  ∧ rationale_action sample_two (js "Wealth") None sample_now
    = mkEnded (inl (ValueIdNotFound (js "Wealth"))) sample_two
  ∧ remove_action sample_two (js "Wealth")
    = mkEnded (inl (ValueIdNotFound (js "Wealth"))) sample_two.
Proof.
  assert (Hno : ∀ v, v ∈ sample_two → id v ≠ js "Wealth").
  { intros v Hv Hid. vm_compute in Hid.
    repeat (apply elem_of_cons in Hv as [->|Hv]; [discriminate Hid|]).
    by apply elem_of_nil in Hv. }
  split; [exact Hno|].
  exact (unknown_id_rejected sample_two (js "Wealth") None None None None
           sample_now Hno).
Defined.

(** [remove] at the first record of the id. (What a file written from
    an empty array reads back as is not modelled, so the records that stay
    are taken to be at least one.) *)
Lemma remove_action_at_first before v after :
  (∀ u, u ∈ before → id u ≠ id v) →
  before ++ after ≠ [] →
  remove_action (before ++ v :: after) (id v)
  = mkEnded (inr (before ++ v :: after)) (before ++ after).
Proof.
  intros Hfirst _.
  assert (Hfind : list_find (λ r, id ((before ++ v :: after) !!! r) = id v)
                    (seq 0 (length (before ++ v :: after)))
                  = Some (length before, length before)).
  { apply seq_find_Some. split; [done|]. by exists before, v, after. }
  unfold remove_action, readValues, findIndex_id. rewrite Hfind. simpl.
  by rewrite writeValues_delete, delete_middle.
Qed.

(** X6. [remove] deletes exactly the first record, in file order, that
    carries the id: the records before and after it, at least one of them,
    are written back unchanged and in order, also when a later record has
    the same id. *)
Theorem remove_first_match before v after :
  (∀ u, u ∈ before → id u ≠ id v) →
  before ++ after ≠ [] →
  remove_action (before ++ v :: after) (id v)
  = mkEnded (inr (before ++ v :: after)) (before ++ after).
Proof. exact (remove_action_at_first before v after). Qed.

Lemma remove_first_match_witness :
  ((∀ u, u ∈ [sample_value "Life" 1520 2]
         → id u ≠ id (sample_value "Health" 1500 0)) ∧
   [sample_value "Life" 1520 2] ++ [sample_value "Health" 1480 1] ≠ []) ∧
  remove_action ([sample_value "Life" 1520 2]
                   ++ sample_value "Health" 1500 0
                   :: [sample_value "Health" 1480 1])
    (id (sample_value "Health" 1500 0))
  = mkEnded (inr ([sample_value "Life" 1520 2]
                    ++ sample_value "Health" 1500 0
                    :: [sample_value "Health" 1480 1]))
      ([sample_value "Life" 1520 2] ++ [sample_value "Health" 1480 1]).
Proof.
  assert (Hfirst : ∀ u, u ∈ [sample_value "Life" 1520 2]
                        → id u ≠ id (sample_value "Health" 1500 0)).
  { intros u Hu Hid. vm_compute in Hid.
    repeat (apply elem_of_cons in Hu as [->|Hu]; [discriminate Hid|]).
    by apply elem_of_nil in Hu. }
  assert (Hstay : [sample_value "Life" 1520 2]
                    ++ [sample_value "Health" 1480 1] ≠ [])
    by discriminate.
  split; [split; [exact Hfirst|exact Hstay]|].
  exact (remove_first_match _ _ _ Hfirst Hstay).
Defined.



Lemma edit_action_at_first before v after new_title new_tags new_desc now :
  (∀ u, u ∈ before → id u ≠ id v) →
  let v' :=
    mkValue (id v)
      (if truthy new_title then or_empty new_title else title v)
      (score v) (comparisonCount v)
      (match new_tags with Some t => t | None => tags v end)
      (createdAt v) now
      (if truthy new_desc then or_empty new_desc else rationale v) in
  edit_action (before ++ v :: after) (id v) new_title new_tags new_desc now
  = mkEnded (inr (before ++ v' :: after)) (before ++ v' :: after).
Proof.
  intros Hfirst v'.
  assert (Hfind : list_find (λ r, id ((before ++ v :: after) !!! r) = id v)
                    (seq 0 (length (before ++ v :: after)))
                  = Some (length before, length before)).
  { apply seq_find_Some. split; [done|]. by exists before, v, after. }
  unfold edit_action, readValues, find_id. rewrite Hfind. simpl.
  assert (Hlen : ∀ w, length (before ++ w :: after)
                      = length (before ++ v :: after)).
  { intros w. rewrite !length_app. done. }
  unfold v'.
  destruct (truthy new_title), new_tags as [t|], (truthy new_desc);
    rewrite !alter_middle;
    (rewrite writeValues_same_length by apply Hlen); done.
Qed.

(** X8. [edit] rewrites only the first record that carries the id: its
    title and rationale are replaced when the option is present and not
    empty, its tags whenever [--tags] is present (an empty [--tags] clears
    them), its updatedAt becomes the timestamp; its id, score,
    comparisonCount and createdAt, and every other record, are written
    back as they were. *)
Theorem edit_first_match before v after new_title new_tags new_desc now :
  (∀ u, u ∈ before → id u ≠ id v) →
  let v' :=
    mkValue (id v)
      (if truthy new_title then or_empty new_title else title v)
      (score v) (comparisonCount v)
      (match new_tags with Some t => t | None => tags v end)
      (createdAt v) now
      (if truthy new_desc then or_empty new_desc else rationale v) in
  edit_action (before ++ v :: after) (id v) new_title new_tags new_desc now
  = mkEnded (inr (before ++ v' :: after)) (before ++ v' :: after).
Proof. exact (edit_action_at_first before v after new_title new_tags new_desc now). Qed.

Lemma edit_first_match_witness :
  (∀ u, u ∈ [sample_value "Life" 1520 2]
        → id u ≠ id (sample_value "Health" 1500 0)) ∧
  edit_action ([sample_value "Life" 1520 2]
                 ++ sample_value "Health" 1500 0 :: [])
    (id (sample_value "Health" 1500 0)) (Some []) (Some []) None sample_now
  = mkEnded
      (inr ([sample_value "Life" 1520 2]
              ++ mkValue (js "Health") (js "Health") 1500 0 [] []
                   sample_now [] :: []))
      ([sample_value "Life" 1520 2]
         ++ mkValue (js "Health") (js "Health") 1500 0 [] [] sample_now []
         :: []).
Proof.
  assert (Hfirst : ∀ u, u ∈ [sample_value "Life" 1520 2]
                        → id u ≠ id (sample_value "Health" 1500 0)).
  { intros u Hu Hid. vm_compute in Hid.
    repeat (apply elem_of_cons in Hu as [->|Hu]; [discriminate Hid|]).
    by apply elem_of_nil in Hu. }
  split; [exact Hfirst|].
  exact (edit_first_match [sample_value "Life" 1520 2]
           (sample_value "Health" 1500 0) [] (Some []) (Some []) None
           sample_now Hfirst).
Defined.

Lemma rationale_action_at_first before v after update now :
  (∀ u, u ∈ before → id u ≠ id v) →
  rationale_action (before ++ v :: after) (id v) update now
  = if truthy update
    then mkEnded (inr RationaleUpdated)
           (before
            ++ mkValue (id v) (title v) (score v) (comparisonCount v)
                 (tags v) (createdAt v) now (or_empty update)
            :: after)
    else mkEnded
           (inr (RationaleShown
                   (if bool_decide (rationale v = [])
                    then no_rationale else rationale v)))
           (before ++ v :: after).
Proof.
  intros Hfirst.
  assert (Hfind : list_find (λ r, id ((before ++ v :: after) !!! r) = id v)
                    (seq 0 (length (before ++ v :: after)))
                  = Some (length before, length before)).
  { apply seq_find_Some. split; [done|]. by exists before, v, after. }
  unfold rationale_action, readValues, find_id. rewrite Hfind. simpl.
  destruct (truthy update).
  - rewrite !alter_middle.
    rewrite writeValues_same_length by (by rewrite !length_app). done.
  - assert (Hv : (before ++ v :: after) !!! length before = v).
    { apply list_lookup_total_correct.
      by rewrite lookup_app_r, Nat.sub_diag by lia. }
    rewrite Hv. by destruct (rationale v).
Qed.

(** X9. [rationale] on the first record that carries the id: with an
    [--update] text that is present and not empty it replaces the
    rationale and the updatedAt of that record and nothing else; otherwise
    it writes nothing and prints the rationale, or the placeholder when the
    rationale is empty. *)
Theorem rationale_first_match before v after update now :
  (∀ u, u ∈ before → id u ≠ id v) →
  rationale_action (before ++ v :: after) (id v) update now
  = if truthy update
    then mkEnded (inr RationaleUpdated)
           (before
            ++ mkValue (id v) (title v) (score v) (comparisonCount v)
                 (tags v) (createdAt v) now (or_empty update)
            :: after)
    else mkEnded
           (inr (RationaleShown
                   (if bool_decide (rationale v = [])
                    then no_rationale else rationale v)))
           (before ++ v :: after).
Proof. exact (rationale_action_at_first before v after update now). Qed.

Lemma rationale_first_match_witness :
  (∀ u, u ∈ [sample_value "Life" 1520 2]
        → id u ≠ id (sample_value "Health" 1500 0)) ∧
  rationale_action ([sample_value "Life" 1520 2]
                      ++ sample_value "Health" 1500 0 :: [])
    (id (sample_value "Health" 1500 0)) (Some []) sample_now
  = if truthy (Some [])
    then mkEnded (inr RationaleUpdated)
           ([sample_value "Life" 1520 2]
            ++ mkValue (id (sample_value "Health" 1500 0))
                 (title (sample_value "Health" 1500 0))
                 (score (sample_value "Health" 1500 0))
                 (comparisonCount (sample_value "Health" 1500 0))
                 (tags (sample_value "Health" 1500 0))
                 (createdAt (sample_value "Health" 1500 0)) sample_now
                 (or_empty (Some []))
            :: [])
    else mkEnded
           (inr (RationaleShown
                   (if bool_decide
                         (rationale (sample_value "Health" 1500 0) = [])
                    then no_rationale
                    else rationale (sample_value "Health" 1500 0))))
           ([sample_value "Life" 1520 2]
              ++ sample_value "Health" 1500 0 :: []).
Proof.
  assert (Hfirst : ∀ u, u ∈ [sample_value "Life" 1520 2]
                        → id u ≠ id (sample_value "Health" 1500 0)).
  { intros u Hu Hid. vm_compute in Hid.
    repeat (apply elem_of_cons in Hu as [->|Hu]; [discriminate Hid|]).
    by apply elem_of_nil in Hu. }
  split; [exact Hfirst|].
  exact (rationale_first_match [sample_value "Life" 1520 2]
           (sample_value "Health" 1500 0) [] (Some []) sample_now Hfirst).
Defined.

(** * Further properties of [update-scores] *)

Lemma totalComparisons_foldr values :
  totalComparisons values = foldr (λ v sum, comparisonCount v + sum) 0 values.
Proof.
  unfold totalComparisons.
  assert (H : ∀ a, foldl (λ sum v, sum + comparisonCount v) a values
                   = a + foldr (λ v sum, comparisonCount v + sum) 0 values).
  { induction values as [|v values IH]; intros a; simpl; [lia|].
    rewrite IH. lia. }
  rewrite H. lia.
Qed.

(** Altering one entry by a function that shifts a measure by [c] shifts
    the sum of the measure by [c]. *)
Lemma foldr_alter_shift (g : Value → Z) (f : Value → Value) c i values :
  (∀ v, g (f v) = g v + c) → (i < length values)%nat →
  foldr (λ v sum, g v + sum) 0 (alter f i values)
  = foldr (λ v sum, g v + sum) 0 values + c.
Proof.
  intros Hf. revert i.
  induction values as [|v values IH]; intros [|i] Hi; simpl in Hi; try lia.
  - simpl. rewrite Hf. lia.
  - change (alter f (S i) (v :: values)) with (v :: alter f i values).
    cbn [foldr]. rewrite IH by lia. lia.
Qed.

Lemma adjust_total_score now w l heap :
  (w < length heap)%nat → (l < length heap)%nat →
  total_score (adjust now w l heap) = total_score heap.
Proof.
  intros Hw Hl. unfold total_score, adjust.
  rewrite (foldr_alter_shift score _ 0);
    [|intros; simpl; lia|by rewrite !length_alter].
  rewrite (foldr_alter_shift score _ 0);
    [|intros; simpl; lia|by rewrite !length_alter].
  rewrite (foldr_alter_shift score _ 0);
    [|intros; simpl; lia|by rewrite !length_alter].
  rewrite (foldr_alter_shift score _ 0);
    [|intros; simpl; lia|by rewrite !length_alter].
  rewrite (foldr_alter_shift score _ (-10));
    [|intros; simpl; lia|by rewrite !length_alter].
  rewrite (foldr_alter_shift score _ 10); [lia|intros; simpl; lia|done].
Qed.

Lemma adjust_totalComparisons now w l heap :
  (w < length heap)%nat → (l < length heap)%nat →
  totalComparisons (adjust now w l heap) = totalComparisons heap + 2.
Proof.
  intros Hw Hl. rewrite !totalComparisons_foldr. unfold adjust.
  rewrite (foldr_alter_shift comparisonCount _ 0);
    [|intros; simpl; lia|by rewrite !length_alter].
  rewrite (foldr_alter_shift comparisonCount _ 0);
    [|intros; simpl; lia|by rewrite !length_alter].
  rewrite (foldr_alter_shift comparisonCount _ 1);
    [|intros; simpl; lia|by rewrite !length_alter].
  rewrite (foldr_alter_shift comparisonCount _ 1);
    [|intros; simpl; lia|by rewrite !length_alter].
  rewrite (foldr_alter_shift comparisonCount _ 0);
    [|intros; simpl; lia|by rewrite !length_alter].
  rewrite (foldr_alter_shift comparisonCount _ 0); [lia|intros; simpl; lia|done].
Qed.

Lemma rated_on_refl v : rated_on v v.
Proof.
  unfold rated_on, same_identity. split_and!; try done; try lia.
  by rewrite Z.sub_diag.
Qed.

Lemma rated_on_trans v1 v2 v3 :
  rated_on v1 v2 → rated_on v2 v3 → rated_on v1 v3.
Proof.
  unfold rated_on, same_identity.
  intros [(?&?&?&?&?) [? H12]] [(?&?&?&?&?) [? H23]].
  split_and!; try congruence; try lia.
  replace (score v3 - score v1)
    with ((score v3 - score v2) + (score v2 - score v1)) by lia.
  by rewrite Z.add_mod, H12, H23 by lia.
Qed.

Lemma adjust_rated_on now w l heap :
  Forall2 rated_on heap (adjust now w l heap).
Proof.
  apply Forall2_same_length_lookup_2; [by rewrite adjust_length|].
  intros i v v' Hv Hv'.
  destruct (adjust_lookup now w l heap i v Hv)
    as (v'' & Hv'' & Hid & Hs & Hc & _).
  simplify_eq. unfold rated_on. split_and!; [done| |].
  - repeat case_decide; lia.
  - rewrite Hs. repeat case_decide;
      match goal with |- ?e mod 10 = 0 =>
        first [ replace e with 0 by lia | replace e with 10 by lia
              | replace e with (-10) by lia ] end; done.
Qed.

(** What one applied response keeps and moves. *)
Lemma apply_response_totals now heap resp heap' :
  apply_response now (seq 0 (length heap)) heap resp = inr heap' →
  length heap' = length heap
  ∧ Forall2 rated_on heap heap'
  ∧ total_score heap' = total_score heap
  ∧ totalComparisons heap' = totalComparisons heap + 2.
Proof.
  unfold apply_response.
  destruct (resolve _ heap resp) as [|[w l]] eqn:Hres; [done|].
  intros ?; simplify_eq.
  destruct (resolve_in_range _ _ _ _ _ Hres) as [Hw Hl].
  split_and!.
  - apply adjust_length.
  - apply adjust_rated_on.
  - by apply adjust_total_score.
  - by apply adjust_totalComparisons.
Qed.

Lemma apply_responses_totals now n heap responses heap' :
  length heap = n →
  apply_responses now (seq 0 n) heap responses = inr heap' →
  length heap' = n
  ∧ Forall2 rated_on heap heap'
  ∧ total_score heap' = total_score heap
  ∧ totalComparisons heap' = totalComparisons heap
                             + 2 * Z.of_nat (length responses).
Proof.
  revert heap. induction responses as [|resp rest IH]; intros heap Hn; simpl.
  { intros ?; simplify_eq. split_and!; [done| |done|lia].
    apply Forall_Forall2_diag, Forall_forall. intros; apply rated_on_refl. }
  destruct (apply_response now (seq 0 n) heap resp) as [|heap1] eqn:H1;
    [done|].
  intros Hrest. subst n.
  apply apply_response_totals in H1 as (Hl1 & Hr1 & Hs1 & Hc1).
  destruct (IH heap1 Hl1 Hrest) as (Hl & Hr & Hs & Hc).
  split_and!; [done| |lia|lia].
  eapply Forall2_trans; [|exact Hr1|exact Hr].
  apply rated_on_trans.
Qed.

(** What a run of [update-scores] that succeeds writes, when every record
    starts with the margin of one outcome per response. *)
Lemma update_scores_numbers_totals disk text now heap' :
  Forall (within (Z.of_nat (length (split comma text)))) disk →
  outcome (update_scores_numbers disk (Some text) now) = inr heap' →
  disk_after (update_scores_numbers disk (Some text) now) = heap'
  ∧ length heap' = length disk
  ∧ Forall2 rated_on disk heap'
  ∧ total_score heap' = total_score disk
  ∧ totalComparisons heap'
    = totalComparisons disk + 2 * Z.of_nat (length (split comma text)).
Proof.
  intros Hsafe. rewrite (update_scores_numbers_exact disk text now Hsafe).
  destruct text as [|c text]; [done|].
  unfold update_scores, readValues.
  destruct (apply_responses now _ disk _) as [|heap1] eqn:Hrun; [done|].
  simpl. intros ?; simplify_eq.
  apply apply_responses_totals in Hrun as (Hl & Hr & Hs & Hc); [|done].
  split_and!; try done.
  by apply writeValues_same_length.
Qed.

(** X10. A run of [update-scores] that succeeds, on records whose scores
    and comparisonCounts are integers that leave the margin of one outcome
    per response below 2^53 in magnitude, writes back the same records in
    the same order with their id, title, tags, createdAt and rationale
    unchanged; no comparisonCount goes down and every score moves by a
    multiple of 10; the sum of all scores is what it was, and the sum of
    all comparisonCounts has grown by two per response. *)
Theorem update_scores_conserves disk text now heap' :
  Forall (within (Z.of_nat (length (split comma text)))) disk →
  outcome (update_scores_numbers disk (Some text) now) = inr heap' →
  disk_after (update_scores_numbers disk (Some text) now) = heap'
  ∧ length heap' = length disk
  ∧ Forall2 rated_on disk heap'
  ∧ total_score heap' = total_score disk
  ∧ totalComparisons heap'
    = totalComparisons disk + 2 * Z.of_nat (length (split comma text)).
Proof. exact (update_scores_numbers_totals disk text now heap'). Qed.

Lemma update_scores_conserves_witness :
  (Forall (within (Z.of_nat (length (split comma sample_response))))
     sample_disk ∧
   outcome (update_scores_numbers sample_disk (Some sample_response)
              sample_now)
   = inr [ mkValue (js "Life") (js "Life") 1530 3 [] [] sample_now [];
          mkValue (js "Health") (js "Health") 1490 1 [] [] sample_now [];
          sample_value "Reason" 1510 1; sample_value "Purpose" 1490 0;
          sample_value "Career" 1480 1 ]) ∧
  disk_after (update_scores_numbers sample_disk (Some sample_response)
                sample_now)
  = [ mkValue (js "Life") (js "Life") 1530 3 [] [] sample_now [];
          mkValue (js "Health") (js "Health") 1490 1 [] [] sample_now [];
          sample_value "Reason" 1510 1; sample_value "Purpose" 1490 0;
          sample_value "Career" 1480 1 ]
  ∧ length [ mkValue (js "Life") (js "Life") 1530 3 [] [] sample_now [];
          mkValue (js "Health") (js "Health") 1490 1 [] [] sample_now [];
          sample_value "Reason" 1510 1; sample_value "Purpose" 1490 0;
          sample_value "Career" 1480 1 ] = length sample_disk
  ∧ Forall2 rated_on sample_disk [ mkValue (js "Life") (js "Life") 1530 3 [] [] sample_now [];
          mkValue (js "Health") (js "Health") 1490 1 [] [] sample_now [];
          sample_value "Reason" 1510 1; sample_value "Purpose" 1490 0;
          sample_value "Career" 1480 1 ]
  ∧ total_score [ mkValue (js "Life") (js "Life") 1530 3 [] [] sample_now [];
          mkValue (js "Health") (js "Health") 1490 1 [] [] sample_now [];
          sample_value "Reason" 1510 1; sample_value "Purpose" 1490 0;
          sample_value "Career" 1480 1 ] = total_score sample_disk
  ∧ totalComparisons [ mkValue (js "Life") (js "Life") 1530 3 [] [] sample_now [];
          mkValue (js "Health") (js "Health") 1490 1 [] [] sample_now [];
          sample_value "Reason" 1510 1; sample_value "Purpose" 1490 0;
          sample_value "Career" 1480 1 ]
    = totalComparisons sample_disk
      + 2 * Z.of_nat (length (split comma sample_response)).
Proof.
  assert (Hsafe : Forall (within (Z.of_nat (length (split comma
                                                      sample_response))))
                    sample_disk).
  { unfold sample_disk.
    repeat (constructor; [split; vm_compute; discriminate|]).
    constructor. }
  assert (Hrun : outcome (update_scores_numbers sample_disk
                            (Some sample_response) sample_now)
                 = inr [ mkValue (js "Life") (js "Life") 1530 3 [] [] sample_now [];
          mkValue (js "Health") (js "Health") 1490 1 [] [] sample_now [];
          sample_value "Reason" 1510 1; sample_value "Purpose" 1490 0;
          sample_value "Career" 1480 1 ])
    by (vm_compute; reflexivity).
  split; [split; [exact Hsafe|exact Hrun]|].
  exact (update_scores_conserves sample_disk sample_response sample_now _
           Hsafe Hrun).
Defined.

Lemma same_titles_sym heap heap' :
  same_titles heap heap' → same_titles heap' heap.
Proof. intros [Hl Ht]. split; [done|]. intros r. by rewrite Ht. Qed.

Lemma find_title_has_title values heap t r :
  find_title values heap t = Some r →
  (r < length heap)%nat → has_title heap t.
Proof.
  unfold find_title. intros ([k r'] & Hfind & ->)%fmap_Some Hr.
  apply list_find_Some in Hfind as (_ & Ht & _). simpl in *.
  exists (heap !!! r'). split; [|done].
  by apply list_elem_of_lookup_total_2.
Qed.

(** A response resolves exactly when it is acceptable. *)
Lemma resolve_acceptable heap resp :
  (∃ p, resolve (seq 0 (length heap)) heap resp = inr p)
  ↔ acceptable heap resp.
Proof.
  split.
  - intros [[w l] Hres].
    destruct (resolve_in_range _ _ _ _ _ Hres) as [Hw Hl].
    unfold resolve in Hres. unfold acceptable.
    destruct (split greater_than resp !! 0%nat) as [winner|]; [|done].
    destruct (split greater_than resp !! 1%nat) as [loser|]; [|done].
    case_bool_decide as Hne; [done|].
    destruct (find_title _ _ (trim winner)) as [w'|] eqn:Hfw; [|done].
    destruct (find_title _ _ (trim loser)) as [l'|] eqn:Hfl; [|done].
    simplify_eq. exists winner, loser.
    split_and!; try done; try (intros ->; apply Hne; auto);
      eauto using find_title_has_title.
  - intros (winner & loser & Hw & Hl & Hwne & Hlne & Hhw & Hhl).
    destruct (resolve_first heap resp winner loser Hw Hl Hwne Hlne Hhw Hhl)
      as (w & l & _ & _ & Hres).
    by exists (w, l).
Qed.

Lemma acceptable_same_titles heap heap' resp :
  same_titles heap heap' → acceptable heap resp ↔ acceptable heap' resp.
Proof.
  intros Hs. unfold acceptable.
  split; intros (winner & loser & ? & ? & ? & ? & ? & ?);
    exists winner, loser; split_and!; try done;
    eauto using same_titles_has_title, same_titles_sym.
Qed.

Lemma apply_responses_succeeds now heap0 heap responses :
  same_titles heap0 heap →
  (∃ heap', apply_responses now (seq 0 (length heap0)) heap responses
            = inr heap')
  ↔ Forall (acceptable heap0) responses.
Proof.
  revert heap. induction responses as [|resp rest IH]; intros heap Hs; simpl.
  { split; [by constructor|by eexists]. }
  assert (Hlen : length heap = length heap0) by apply Hs.
  pose proof (resolve_acceptable heap resp) as Hacc. rewrite Hlen in Hacc.
  rewrite <-(acceptable_same_titles heap0 heap resp Hs) in Hacc.
  unfold apply_response.
  destruct (resolve (seq 0 (length heap0)) heap resp) as [f|[w l]] eqn:Hres.
  - split; [by intros [? ?]|].
    intros [Hr _]%Forall_cons. apply Hacc in Hr as [? ?]. done.
  - rewrite IH by (by apply same_titles_adjust).
    rewrite Forall_cons. split; [|by intros [_ ?]].
    intros Hrest. split; [|done]. apply Hacc. by eexists.
Qed.

(** The loop over doubles and the loop over exact integers stop at the
    same response with the same error, or both run to the end: which
    response is rejected depends on the titles only. *)
Lemma apply_responses_numbers_alike now values heap heap' responses :
  same_titles heap heap' →
  match apply_responses now values heap responses,
        apply_responses_numbers now values heap' responses with
  | inl failure, inl failure' => failure = failure'
  | inr _, inr _ => True
  | _, _ => False
  end.
Proof.
  revert heap heap'.
  induction responses as [|resp rest IH]; intros heap heap' Hs; [done|].
  cbn [apply_responses apply_responses_numbers].
  unfold apply_response, apply_response_numbers.
  rewrite (resolve_same_titles values heap heap' resp Hs).
  destruct (resolve values heap resp) as [f|[w l]]; [done|].
  apply IH. eapply same_titles_trans.
  - apply same_titles_sym, same_titles_adjust, same_titles_refl.
  - by apply same_titles_adjust_numbers.
Qed.

(** So a run fails on doubles exactly when it fails on exact integers,
    with the same error, and then leaves the file as it was. *)
Lemma update_scores_numbers_failure disk responses now failure :
  outcome (update_scores_numbers disk responses now) = inl failure
  ↔ outcome (update_scores disk responses now) = inl failure.
Proof.
  destruct responses as [[|c text]|]; [done| |done].
  pose proof (apply_responses_numbers_alike now (seq 0 (length disk)) disk
                disk (split comma (c :: text)) (same_titles_refl disk))
    as Halike.
  unfold update_scores_numbers, update_scores, readValues.
  destruct (apply_responses now _ disk _) as [f|heap1],
    (apply_responses_numbers now _ disk _) as [f'|heap2];
    simpl; try done.
  by subst.
Qed.

(** The loop accepts the same batches whatever its sums round to. *)
Lemma apply_responses_numbers_succeeds now heap0 heap responses :
  same_titles heap0 heap →
  (∃ heap', apply_responses_numbers now (seq 0 (length heap0)) heap responses
            = inr heap')
  ↔ Forall (acceptable heap0) responses.
Proof.
  revert heap. induction responses as [|resp rest IH]; intros heap Hs.
  { split; [by constructor|by eexists]. }
  cbn [apply_responses_numbers].
  assert (Hlen : length heap = length heap0) by apply Hs.
  pose proof (resolve_acceptable heap resp) as Hacc. rewrite Hlen in Hacc.
  rewrite <-(acceptable_same_titles heap0 heap resp Hs) in Hacc.
  unfold apply_response_numbers.
  destruct (resolve (seq 0 (length heap0)) heap resp) as [f|[w l]] eqn:Hres.
  - split; [by intros [? ?]|].
    intros [Hr _]%Forall_cons. apply Hacc in Hr as [? ?]. done.
  - rewrite IH by (by apply same_titles_adjust_numbers).
    rewrite Forall_cons. split; [|by intros [_ ?]].
    intros Hrest. split; [|done]. apply Hacc. by eexists.
Qed.

(** X11. [update-scores] succeeds exactly when the [--responses] text is
    not empty and each of its comma-separated responses has a winner and a
    loser side that are not empty and whose trimmed texts are titles of
    records. Only then does it write the file: a run that fails leaves the
    file as it was, a run that succeeds leaves the records of its
    outcome. *)
Theorem update_scores_succeeds_iff disk text now :
  ((∃ heap', outcome (update_scores_numbers disk (Some text) now)
             = inr heap')
   ↔ text ≠ [] ∧ Forall (acceptable disk) (split comma text))
  ∧ match outcome (update_scores_numbers disk (Some text) now) with
    | inl _ =>
        disk_after (update_scores_numbers disk (Some text) now) = disk
    | inr heap' =>
        disk_after (update_scores_numbers disk (Some text) now) = heap'
    end.
Proof.
  destruct text as [|c text].
  { split; [|done]. split; [by intros [? ?]|by intros [? _]]. }
  rewrite <-(apply_responses_numbers_succeeds now disk disk _
               (same_titles_refl disk)).
  unfold update_scores_numbers, readValues.
  destruct (apply_responses_numbers now _ disk _) as [f|heap1] eqn:Hrun;
    simpl.
  - split; [|done]. split; [by intros [? ?]|by intros [_ [? ?]]].
  - split; [split; [intros _; split; [done|by eexists]|by eexists]|].
    assert (Hl : length heap1 = length disk).
    { assert (Hs : ∀ responses heap heap',
                apply_responses_numbers now (seq 0 (length disk)) heap
                  responses = inr heap' → length heap' = length heap).
      { induction responses as [|resp rest IH]; intros heap heap';
          cbn [apply_responses_numbers]; [by intros; simplify_eq|].
        unfold apply_response_numbers.
        destruct (resolve _ heap resp) as [|[w l]]; [done|].
        intros ->%IH. apply adjust_numbers_length. }
      by eapply Hs. }
    rewrite <-Hl. apply writeValues_all.
Qed.

(** * An invariant of stores grown by the tool *)

Lemma total_score_app values values' :
  total_score (values ++ values') = total_score values + total_score values'.
Proof.
  unfold total_score. induction values as [|v values IH]; simpl; [done|].
  rewrite IH. lia.
Qed.

Lemma totalComparisons_app values values' :
  totalComparisons (values ++ values')
  = totalComparisons values + totalComparisons values'.
Proof.
  rewrite !totalComparisons_foldr.
  induction values as [|v values IH]; simpl; [done|].
  rewrite IH. lia.
Qed.

Lemma total_score_cons v values :
  total_score (v :: values) = score v + total_score values.
Proof. done. Qed.

Lemma totalComparisons_cons v values :
  totalComparisons (v :: values) = comparisonCount v + totalComparisons values.
Proof. by rewrite !totalComparisons_foldr. Qed.

(** [edit] and [rationale] either leave the file alone or rewrite the
    first record of the id. *)
Lemma first_match_cases disk wanted :
  (∀ v, v ∈ disk → id v ≠ wanted)
  ∨ ∃ before v after,
      disk = before ++ v :: after ∧ id v = wanted
      ∧ ∀ u, u ∈ before → id u ≠ id v.
Proof.
  destruct (list_find (λ r, id (disk !!! r) = wanted) (seq 0 (length disk)))
    as [[k r]|] eqn:Hfind.
  - right. apply seq_find_Some in Hfind
      as (_ & before & v & after & -> & _ & Hv & Hfirst).
    exists before, v, after. by rewrite Hv.
  - left. by apply (seq_find_None id).
Qed.

(** The measures of the invariant do not see a record replaced by one of
    the same score and comparisonCount. *)
Lemma replace_same_rating before v v' after :
  score v' = score v → comparisonCount v' = comparisonCount v →
  length (before ++ v' :: after) = length (before ++ v :: after)
  ∧ total_score (before ++ v' :: after) = total_score (before ++ v :: after)
  ∧ totalComparisons (before ++ v' :: after)
    = totalComparisons (before ++ v :: after).
Proof.
  intros Hs Hc.
  rewrite !length_app, !total_score_app, !totalComparisons_app,
    !total_score_cons, !totalComparisons_cons, Hs, Hc. done.
Qed.

(** X12. In a store started by [add] on a file that does not exist yet
    and grown only by [add], [edit], [rationale] and [update-scores], the
    records being, before each run of [update-scores], integers that leave
    the margin of one outcome per response below 2^53 in magnitude, the
    scores sum to 1500 times the number of records, every score differs
    from 1500 by a multiple of 10, no comparisonCount is negative, and the
    comparisonCounts sum to an even number. *)
Theorem grown_invariant disk :
  grown disk →
  total_score disk = 1500 * Z.of_nat (length disk)
  ∧ Forall (λ v, 0 ≤ comparisonCount v ∧ (score v - 1500) mod 10 = 0) disk
  ∧ Z.Even (totalComparisons disk).
Proof.
  assert (Hadd : ∀ disk new_id title tags desc now,
            total_score disk = 1500 * Z.of_nat (length disk)
            ∧ Forall (λ v, 0 ≤ comparisonCount v
                           ∧ (score v - 1500) mod 10 = 0) disk
            ∧ Z.Even (totalComparisons disk) →
            total_score (add_action disk new_id title tags desc now)
            = 1500 * Z.of_nat (length (add_action disk new_id title tags
                                         desc now))
            ∧ Forall (λ v, 0 ≤ comparisonCount v
                           ∧ (score v - 1500) mod 10 = 0)
                (add_action disk new_id title tags desc now)
            ∧ Z.Even (totalComparisons
                        (add_action disk new_id title tags desc now))).
  { intros disk0 new_id title tags desc now (IHs & IHf & IHe).
    rewrite add_action_app, total_score_app, totalComparisons_app, length_app.
    rewrite Forall_app. split_and!.
    + rewrite total_score_cons. change (total_score []) with 0.
      simpl. lia.
    + done.
    + by repeat constructor.
    + rewrite totalComparisons_cons. simpl.
      by rewrite Z.add_0_l, Z.add_0_r. }
  induction 1 as
    [ new_id title tags desc now
    | disk new_id title tags desc now _ IH
    | disk wanted new_title new_tags new_desc now _ (IHs & IHf & IHe)
    | disk wanted update now _ (IHs & IHf & IHe)
    | disk text now _ (IHs & IHf & IHe) Hsafe ].
  - apply Hadd. split_and!; [done|constructor|by exists 0].
  - by apply Hadd.
  - destruct (first_match_cases disk wanted)
      as [Hno|(before & v & after & -> & <- & Hfirst)].
    + destruct (unknown_id_not_found disk wanted new_title new_tags new_desc
                  None now Hno) as (-> & _). done.
    + rewrite (edit_action_at_first before v after _ _ _ _ Hfirst). simpl.
      match goal with |- context [before ++ ?w :: after] =>
        destruct (replace_same_rating before v w after eq_refl eq_refl)
          as (Hl & Hs & Hc) end.
      rewrite Hl, Hs, Hc. split_and!; [done| |done].
      rewrite Forall_app, Forall_cons in IHf |- *. naive_solver.
  - destruct (first_match_cases disk wanted)
      as [Hno|(before & v & after & -> & <- & Hfirst)].
    + destruct (unknown_id_not_found disk wanted None None None update now
                  Hno) as (_ & -> & _). done.
    + rewrite (rationale_action_at_first before v after _ _ Hfirst).
      destruct (truthy update); simpl; [|done].
      match goal with |- context [before ++ ?w :: after] =>
        destruct (replace_same_rating before v w after eq_refl eq_refl)
          as (Hl & Hs & Hc) end.
      rewrite Hl, Hs, Hc. split_and!; [done| |done].
      rewrite Forall_app, Forall_cons in IHf |- *. naive_solver.
  - destruct (outcome (update_scores_numbers disk (Some text) now))
      as [f|heap'] eqn:Hrun.
    + assert (disk_after (update_scores_numbers disk (Some text) now) = disk)
        as ->; [|done].
      destruct text as [|c text]; [done|].
      unfold update_scores_numbers, readValues in *.
      by destruct (apply_responses_numbers now _ disk _).
    + destruct (update_scores_numbers_totals disk text now heap' Hsafe Hrun)
        as (-> & Hl & Hr & Hs & Hc).
      rewrite Hl, Hs, Hc. split_and!; [done| |].
      * clear -IHf Hr. revert IHf.
        induction Hr as [|v v' ?? Hvv' ? IH]; intros IHf; [constructor|].
        apply Forall_cons in IHf as [[Hv0 Hvm] IHf].
        constructor; [|by apply IH].
        destruct Hvv' as (_ & Hc & Hm). split; [lia|].
        replace (score v' - 1500)
          with ((score v' - score v) + (score v - 1500)) by lia.
        by rewrite Z.add_mod, Hm, Hvm by lia.
      * destruct IHe as [k Hk].
        exists (k + Z.of_nat (length (split comma text))). lia.
Qed.

Lemma grown_invariant_witness :
  grown (disk_after
           (update_scores_numbers
              (add_action
                 (add_action [] (js "20260101-joy") (js "Joy") None None
                    sample_now)
                 (js "20260101-work") (js "Work") None None sample_now)
              (Some (js "Joy>Work")) sample_now)) ∧
  total_score
    (disk_after
       (update_scores_numbers
          (add_action
             (add_action [] (js "20260101-joy") (js "Joy") None None
                sample_now)
             (js "20260101-work") (js "Work") None None sample_now)
          (Some (js "Joy>Work")) sample_now))
  = 1500 * Z.of_nat
             (length
                (disk_after
                   (update_scores_numbers
                      (add_action
                         (add_action [] (js "20260101-joy") (js "Joy") None
                            None sample_now)
                         (js "20260101-work") (js "Work") None None
                         sample_now)
                      (Some (js "Joy>Work")) sample_now)))
  ∧ Forall (λ v, 0 ≤ comparisonCount v ∧ (score v - 1500) mod 10 = 0)
      (disk_after
         (update_scores_numbers
            (add_action
               (add_action [] (js "20260101-joy") (js "Joy") None None
                  sample_now)
               (js "20260101-work") (js "Work") None None sample_now)
            (Some (js "Joy>Work")) sample_now))
  ∧ Z.Even
      (totalComparisons
         (disk_after
            (update_scores_numbers
               (add_action
                  (add_action [] (js "20260101-joy") (js "Joy") None None
                     sample_now)
                  (js "20260101-work") (js "Work") None None sample_now)
               (Some (js "Joy>Work")) sample_now))).
Proof.
  assert (Hg : grown (disk_after
                        (update_scores_numbers
                           (add_action
                              (add_action [] (js "20260101-joy") (js "Joy")
                                 None None sample_now)
                              (js "20260101-work") (js "Work") None None
                              sample_now)
                           (Some (js "Joy>Work")) sample_now))).
  { apply grown_update_scores; [apply grown_add, grown_first|].
    assert (Hd : add_action
                   (add_action [] (js "20260101-joy") (js "Joy") None None
                      sample_now)
                   (js "20260101-work") (js "Work") None None sample_now
                 = [ newValue (js "20260101-joy") (js "Joy") None None
                       sample_now;
                     newValue (js "20260101-work") (js "Work") None None
                       sample_now ])
      by (vm_compute; reflexivity).
    rewrite Hd.
    repeat (constructor; [split; vm_compute; discriminate|]).
    constructor. }
  split; [exact Hg|].
  exact (grown_invariant _ Hg).
Defined.

(** * Properties of [top10], [list] and [hierarchy] *)

Lemma StronglySorted_filter {A} (R : relation A) (P : A → Prop)
    `{∀ x, Decision (P x)} l :
  StronglySorted R l → StronglySorted R (filter P l).
Proof.
  induction 1 as [|x l Hl IH Hx]; [constructor|].
  rewrite filter_cons. case_decide; [|done].
  constructor; [done|].
  apply Forall_forall. intros y [_ Hy]%list_elem_of_filter.
  rewrite Forall_forall in Hx. by apply Hx.
Qed.

Lemma StronglySorted_take {A} (R : relation A) k l :
  StronglySorted R l → StronglySorted R (take k l).
Proof.
  intros Hl. rewrite <-(take_drop k l) in Hl.
  by apply StronglySorted_app_1_l in Hl.
Qed.

Lemma rank_rows_take heap values k :
  rank_rows heap (take k values) = take k (rank_rows heap values).
Proof.
  unfold rank_rows. apply list_eq. intros i.
  rewrite list_lookup_imap.
  destruct (decide (i < k)%nat).
  - by rewrite !lookup_take_lt, list_lookup_imap by done.
  - by rewrite !lookup_take_ge by lia.
Qed.

Lemma rank_rows_length heap values :
  length (rank_rows heap values) = length values.
Proof. apply length_imap. Qed.

Lemma rank_rows_ranked heap values :
  ranked <$> rank_rows heap values = (λ r, heap !!! r) <$> values.
Proof.
  unfold rank_rows. apply list_eq. intros i.
  rewrite !list_lookup_fmap, list_lookup_imap.
  by destruct (values !! i).
Qed.

Lemma slice0_take_kept {A} (l : list A) z :
  slice0 l z = take (kept (Int z) (length l)) l.
Proof.
  unfold slice0, kept. case_bool_decide; f_equal; lia.
Qed.

Lemma slice_limit_take {A} (l : list A) limit :
  slice_limit l limit = take (kept limit (length l)) l.
Proof.
  destruct limit as [|z]; [|apply slice0_take_kept].
  simpl. rewrite slice0_take by lia. done.
Qed.

Lemma elem_of_tag_filter heap tag values r :
  r ∈ tag_filter heap tag values ↔ r ∈ values ∧ matches_tag heap tag r.
Proof.
  unfold tag_filter, matches_tag. destruct (truthy tag).
  - rewrite list_elem_of_filter. split; intros [? ?]; split; auto.
  - split; [intros ?; split; [done|discriminate]|by intros [? _]].
Qed.

(** The array that [top10] and [list] sort: its entries, and its order. *)
Lemma ranking_order disk tag :
  let order := sort_by_score disk (tag_filter disk tag (seq 0 (length disk))) in
  NoDup order
  ∧ (∀ r, r ∈ order ↔ (r < length disk)%nat ∧ matches_tag disk tag r)
  ∧ StronglySorted (best_first disk) order.
Proof.
  intros order.
  assert (Hperm : order ≡ₚ tag_filter disk tag (seq 0 (length disk)))
    by apply sort_by_perm.
  split_and!.
  - rewrite Hperm. unfold tag_filter.
    destruct (truthy tag); [apply NoDup_filter|]; apply NoDup_seq.
  - intros r. rewrite Hperm, elem_of_tag_filter, elem_of_seq.
    split; intros [? ?]; (split; [lia|done]).
  - apply sort_by_sorted. unfold tag_filter.
    destruct (truthy tag); [apply StronglySorted_filter|]; apply seq_sorted.
Qed.

(** X13. [top10] prints, ranked from 1, at most ten records that pass the
    tag filter, in descending order of score with equal scores in file
    order; a record that passes the filter is left out only when ten are
    shown, and then it scores no higher than any record shown. *)
Theorem top10_shows_best disk tag :
  ∃ shown,
    top10_action disk tag = rank_rows disk shown
    ∧ (length shown ≤ 10)%nat
    ∧ NoDup shown
    ∧ (∀ r, r ∈ shown → (r < length disk)%nat ∧ matches_tag disk tag r)
    ∧ StronglySorted (best_first disk) shown
    ∧ (∀ r', (r' < length disk)%nat → matches_tag disk tag r' →
             r' ∉ shown →
             length shown = 10%nat
             ∧ ∀ r, r ∈ shown → score (disk !!! r') ≤ score (disk !!! r)).
Proof.
  destruct (ranking_order disk tag) as (Hnd & Hin & Hsorted).
  set (order := sort_by_score disk
                  (tag_filter disk tag (seq 0 (length disk)))) in *.
  exists (take 10 order).
  assert (Hslice : slice0 order 10 = take 10 order).
  { rewrite slice0_take by lia. done. }
  split_and!.
  - unfold top10_action, readValues. fold order. by rewrite Hslice.
  - rewrite length_take. lia.
  - eapply sublist_NoDup; [done|apply sublist_take].
  - intros r Hr%subseteq_take. by apply Hin.
  - by apply StronglySorted_take.
  - intros r' Hr' Hm Hout.
    assert (Hord : r' ∈ order) by (by apply Hin).
    rewrite <-(take_drop 10 order) in Hord, Hsorted.
    apply elem_of_app in Hord as [?|Hdrop]; [done|]. split.
    + apply length_take_le.
      destruct (decide (10 ≤ length order)%nat); [done|].
      rewrite drop_ge in Hdrop by lia. by apply elem_of_nil in Hdrop.
    + intros r Hr.
      pose proof (StronglySorted_app_1_elem_of _ _ _ _ _ Hsorted Hr Hdrop)
        as Hle%key_then_le.
      simpl in Hle. lia.
Qed.

(** X14. A [list] run with a limit prints a prefix of what the run without
    the limit prints, ranks included: the first [z] entries for a limit
    [z >= 0], all but the last [-z] for a negative limit, and nothing when
    the limit is not a number. *)
Theorem list_limit_prefix disk limit tag :
  list_action disk (Some limit) tag
  = take (kept limit (length (list_action disk None tag)))
      (list_action disk None tag).
Proof.
  unfold list_action, readValues.
  rewrite slice_limit_take, rank_rows_take, rank_rows_length. done.
Qed.

(** X15. [hierarchy] prints every record of the file exactly once, ranked
    from 1 in descending order of score, equal scores in file order. *)
Theorem hierarchy_lists_everyone disk :
  ranked <$> hierarchy_action disk ≡ₚ disk
  ∧ (∀ i row, hierarchy_action disk !! i = Some row →
              rank row = Z.of_nat i + 1)
  ∧ (∀ i j a b, (i < j)%nat →
       hierarchy_action disk !! i = Some a →
       hierarchy_action disk !! j = Some b →
       score (ranked b) ≤ score (ranked a))
  ∧ StronglySorted (best_first disk) (hierarchy_order disk).
Proof.
  assert (Hperm : hierarchy_order disk ≡ₚ seq 0 (length disk))
    by apply sort_by_perm.
  assert (Hsorted : StronglySorted (best_first disk) (hierarchy_order disk))
    by apply sort_by_sorted, seq_sorted.
  unfold hierarchy_action. split_and!; [| | |done].
  - rewrite rank_rows_ranked, Hperm.
    fold (writeValues disk (seq 0 (length disk))).
    by rewrite writeValues_all.
  - intros i row Hrow. unfold rank_rows in Hrow.
    rewrite list_lookup_imap in Hrow.
    destruct (hierarchy_order disk !! i); by simplify_eq/=.
  - intros i j a b Hij Ha Hb. unfold rank_rows in Ha, Hb.
    rewrite list_lookup_imap in Ha, Hb.
    destruct (hierarchy_order disk !! i) as [ra|] eqn:Hra; simplify_eq/=.
    destruct (hierarchy_order disk !! j) as [rb|] eqn:Hrb; simplify_eq/=.
    rewrite <-(take_drop (S i) (hierarchy_order disk)) in Hsorted.
    assert (ra ∈ take (S i) (hierarchy_order disk)).
    { apply elem_of_take. exists i. split; [done|lia]. }
    assert (rb ∈ drop (S i) (hierarchy_order disk)).
    { apply list_elem_of_lookup. exists (j - S i)%nat.
      rewrite lookup_drop. rewrite <-Hrb. f_equal. lia. }
    pose proof (StronglySorted_app_1_elem_of _ _ _ _ _ Hsorted H H0)
      as Hle%key_then_le.
    simpl in Hle. lia.
Qed.

(** [includes] finds exactly the substrings. *)
Lemma starts_with_spec s t : starts_with s t = true ↔ ∃ b, s = t ++ b.
Proof.
  revert s. induction t as [|c t IH]; intros s; simpl.
  { split; [intros _; by exists s|intros _; by destruct s]. }
  destruct s as [|d s]; simpl.
  { split; [done|by intros [? ?]]. }
  rewrite andb_true_iff, bool_decide_eq_true, IH. split.
  - intros [-> [b ->]]. by exists b.
  - intros [b ?]; simplify_eq. split; [done|by exists b].
Qed.

Lemma includes_spec s t : includes s t = true ↔ substring t s.
Proof.
  unfold substring. induction s as [|d s IH]; cbn [includes].
  - rewrite orb_false_r, starts_with_spec. split.
    + intros [b ->]. by exists [], b.
    + intros (a & b & H). destruct a; simplify_eq/=. by exists b.
  - rewrite orb_true_iff, starts_with_spec, IH. split.
    + intros [[b ->]|(a & b & ->)]; [by exists [], b|by exists (d :: a), b].
    + intros ([|d' a] & b & H); simplify_eq/=; [left; by exists b|].
      right. by exists a, b.
Qed.

(** Each piece of [s.split(sep)] occurs in [s]. *)
Lemma split_substring sep s :
  ∃ piece pieces,
    split sep s = piece :: pieces
    ∧ (∃ b, s = piece ++ b)
    ∧ ∀ p, p ∈ pieces → substring p s.
Proof.
  induction s as [|c s (piece & pieces & Hs & [b Hb] & Hrest)]; simpl.
  { exists [], []. split_and!; [done|by exists []|].
    intros p Hp. by apply elem_of_nil in Hp. }
  case_bool_decide.
  - exists [], (split sep s). split_and!; [done|by eexists|].
    intros p Hp. rewrite Hs in Hp.
    apply elem_of_cons in Hp as [->|Hp].
    + exists [c], b. by rewrite Hb at 1.
    + destruct (Hrest p Hp) as (a & b' & Ha). exists (c :: a), b'.
      by rewrite Ha at 1.
  - rewrite Hs. exists (c :: piece), pieces.
    split_and!; [done|exists b; by rewrite Hb at 1|].
    intros p Hp. destruct (Hrest p Hp) as (a & b' & Ha).
    exists (c :: a), b'. by rewrite Ha at 1.
Qed.

(** X16. [list --tag T] without a limit shows exactly the records whose
    tags text contains [T] somewhere (all records for an empty [T]): every
    record that has [T] among its pipe-separated tags, and also records
    where [T] is only a part of a tag. *)
Theorem list_tag_substring disk tag :
  (∀ v, v ∈ ranked <$> list_action disk None (Some tag)
        ↔ v ∈ disk ∧ substring tag (tags v))
  ∧ (∀ s, tag ∈ split pipe s → substring tag s).
Proof.
  split.
  - intros v. unfold list_action, readValues.
    rewrite rank_rows_ranked, list_elem_of_fmap.
    destruct (ranking_order disk (Some tag)) as (_ & Hin & _).
    assert (Hmatch : ∀ r, matches_tag disk (Some tag) r
                          ↔ substring tag (tags (disk !!! r))).
    { intros r. unfold matches_tag. destruct tag as [|c tag]; simpl.
      - split; [intros _; by exists [], (tags (disk !!! r))|done].
      - rewrite <-includes_spec. split; [by intros H; apply H|done]. }
    split.
    + intros (r & -> & [Hr Hm]%Hin). split.
      * by apply list_elem_of_lookup_total_2.
      * by apply Hmatch.
    + intros [[r Hr]%list_elem_of_lookup Hsub]. exists r. split.
      * by rewrite (list_lookup_total_correct _ _ _ Hr).
      * apply Hin. split; [by eapply lookup_lt_Some|].
        apply Hmatch. by rewrite (list_lookup_total_correct _ _ _ Hr).
  - intros s Hs.
    destruct (split_substring pipe s) as (piece & pieces & Hsp & [b Hb] & Hrest).
    rewrite Hsp in Hs. apply elem_of_cons in Hs as [->|Hs]; [|by apply Hrest].
    by exists [], b.
Qed.

(** ** Ranks before and after an outcome *)

Lemma filter_all {A} (P : A → Prop) `{∀ x, Decision (P x)} l :
  Forall P l → filter P l = l.
Proof.
  induction 1 as [|x l Hx Hl IH]; [done|].
  by rewrite filter_cons_True, IH.
Qed.

Lemma filter_none {A} (P : A → Prop) `{∀ x, Decision (P x)} l :
  Forall (λ x, ¬ P x) l → filter P l = [].
Proof.
  induction 1 as [|x l Hx Hl IH]; [done|].
  by rewrite filter_cons_False.
Qed.

Lemma length_filter_mono {A} (P Q : A → Prop)
    `{∀ x, Decision (P x)} `{∀ x, Decision (Q x)} l :
  (∀ x, x ∈ l → P x → Q x) →
  (length (filter P l) ≤ length (filter Q l))%nat.
Proof.
  induction l as [|x l IH]; intros HPQ; [done|].
  assert (IH' : (length (filter P l) ≤ length (filter Q l))%nat).
  { apply IH. intros y Hy. apply HPQ. by right. }
  rewrite !filter_cons.
  destruct (decide (P x)) as [HP|]; destruct (decide (Q x)) as [|HQ];
    simpl; try lia.
  destruct HQ. apply HPQ; [by left|done].
Qed.

(** In a strictly sorted list the position of an entry is the number of
    entries that come before it in the order. *)
Lemma sorted_position {A} (R : relation A) `{∀ x y, Decision (R x y)} l i r :
  (∀ x y, R x y → ¬ R y x) →
  StronglySorted R l → l !! i = Some r →
  length (filter (λ x, R x r) l) = i.
Proof.
  intros Hasym Hl Hr.
  rewrite <-(take_drop_middle l i r Hr) in Hl |- *.
  rewrite filter_app, filter_cons_False by (intros HR; by eapply Hasym).
  rewrite filter_all, filter_none.
  - rewrite app_nil_r, length_take. apply lookup_lt_Some in Hr. lia.
  - apply Forall_forall. intros x Hx HR.
    apply StronglySorted_app_1_r, StronglySorted_inv in Hl as [_ Hafter].
    rewrite Forall_forall in Hafter. by eapply Hasym; [apply Hafter|].
  - apply Forall_forall. intros x Hx.
    eapply StronglySorted_app_1_elem_of; [done..|by left].
Qed.

Lemma best_first_asym heap r r' : best_first heap r r' → ¬ best_first heap r' r.
Proof. unfold best_first, key_then. lia. Qed.

(** The rank of a record in [hierarchy], counted over the file. *)
Lemma hierarchy_position disk i r :
  hierarchy_order disk !! i = Some r →
  length (filter (λ x, best_first disk x r) (seq 0 (length disk))) = i.
Proof.
  intros Hr.
  rewrite <-(sort_by_perm (λ r, - score (disk !!! r)) (seq 0 (length disk))).
  apply (sorted_position (best_first disk)); [apply best_first_asym| |done].
  apply sort_by_sorted, seq_sorted.
Qed.

Lemma adjust_score now w l heap r :
  (r < length heap)%nat →
  score (adjust now w l heap !!! r)
  = score (heap !!! r) + (if decide (r = w) then 10 else 0)
                       - (if decide (r = l) then 10 else 0).
Proof.
  intros Hr. destruct (lookup_lt_is_Some_2 heap r Hr) as [v Hv].
  destruct (adjust_lookup now w l heap r v Hv) as (v' & Hv' & _ & Hs & _).
  by rewrite (list_lookup_total_correct _ _ _ Hv),
    (list_lookup_total_correct _ _ _ Hv').
Qed.

(** X17. After an applied outcome between two different records, the
    winner does not stand lower in the hierarchy of the updated records
    than it stood before, and the loser does not stand higher. *)
Theorem winner_rank_never_falls heap now resp w l :
  resolve (seq 0 (length heap)) heap resp = inr (w, l) → w ≠ l →
  ∃ heap' i i' j j',
    apply_response now (seq 0 (length heap)) heap resp = inr heap'
    ∧ hierarchy_order heap !! i = Some w
    ∧ hierarchy_order heap' !! i' = Some w
    ∧ (i' ≤ i)%nat
    ∧ hierarchy_order heap !! j = Some l
    ∧ hierarchy_order heap' !! j' = Some l
    ∧ (j ≤ j')%nat.
Proof.
  intros Hres Hne.
  destruct (resolve_in_range _ _ _ _ _ Hres) as [Hw Hl].
  set (heap' := adjust now w l heap).
  assert (Hlen : length heap' = length heap) by apply adjust_length.
  assert (Hpos : ∀ disk r, (r < length disk)%nat →
                           ∃ i, hierarchy_order disk !! i = Some r).
  { intros disk r Hr. apply list_elem_of_lookup.
    unfold hierarchy_order, readValues, sort_by_score.
    rewrite sort_by_perm. apply elem_of_seq. lia. }
  destruct (Hpos heap w Hw) as [i Hi]. destruct (Hpos heap l Hl) as [j Hj].
  destruct (Hpos heap' w ltac:(lia)) as [i' Hi'].
  destruct (Hpos heap' l ltac:(lia)) as [j' Hj'].
  exists heap', i, i', j, j'. split_and!; try done.
  - unfold apply_response. by rewrite Hres.
  - apply hierarchy_position in Hi, Hi'. rewrite Hlen in Hi'.
    rewrite <-Hi, <-Hi'. apply length_filter_mono.
    intros x [_ Hx]%elem_of_seq. unfold best_first, key_then, heap'.
    rewrite !adjust_score by lia.
    repeat case_decide; simplify_eq; lia.
  - apply hierarchy_position in Hj, Hj'. rewrite Hlen in Hj'.
    rewrite <-Hj, <-Hj'. apply length_filter_mono.
    intros x [_ Hx]%elem_of_seq. unfold best_first, key_then, heap'.
    rewrite !adjust_score by lia.
    repeat case_decide; simplify_eq; lia.
Qed.

Lemma winner_rank_never_falls_witness :
  (resolve (seq 0 (length sample_disk)) sample_disk (js "Purpose>Life")
   = inr (3%nat, 0%nat) ∧ 3%nat ≠ 0%nat) ∧
  ∃ heap' i i' j j',
    apply_response sample_now (seq 0 (length sample_disk)) sample_disk
      (js "Purpose>Life") = inr heap'
    ∧ hierarchy_order sample_disk !! i = Some 3%nat
    ∧ hierarchy_order heap' !! i' = Some 3%nat
    ∧ (i' ≤ i)%nat
    ∧ hierarchy_order sample_disk !! j = Some 0%nat
    ∧ hierarchy_order heap' !! j' = Some 0%nat
    ∧ (j ≤ j')%nat.
Proof.
  assert (Hres : resolve (seq 0 (length sample_disk)) sample_disk
                   (js "Purpose>Life") = inr (3%nat, 0%nat))
    by (vm_compute; reflexivity).
  split; [split; [exact Hres|lia]|].
  apply (winner_rank_never_falls sample_disk sample_now (js "Purpose>Life")
           3 0 Hres). lia.
Defined.

(** * Properties of [validate] *)

Lemma ambiguous_snoc values v t :
  ambiguous (values ++ [v]) t
  ↔ ambiguous values t ∨ (title v = t ∧ has_title values t).
Proof.
  unfold ambiguous, has_title. split.
  - intros (i & j & a & b & Hij & Ha & Hb & Hta & Htb).
    apply lookup_app_Some in Ha as [Ha|[Hia Ha]];
      apply lookup_app_Some in Hb as [Hb|[Hjb Hb]].
    + left. by exists i, j, a, b.
    + right. apply list_lookup_singleton_Some in Hb as [_ ->].
      split; [done|]. exists a. split; [by eapply list_elem_of_lookup_2|done].
    + right. apply list_lookup_singleton_Some in Ha as [_ ->].
      split; [done|]. exists b. split; [by eapply list_elem_of_lookup_2|done].
    + apply list_lookup_singleton_Some in Ha as [? _].
      apply list_lookup_singleton_Some in Hb as [? _]. lia.
  - intros [(i & j & a & b & Hij & Ha & Hb & Hta & Htb)
           |[Hv (a & [i Hi]%list_elem_of_lookup & Ha)]].
    + exists i, j, a, b. split_and!; try done; by apply lookup_app_l_Some.
    + exists i, (length values), a, v. split_and!; try done.
      * apply lookup_lt_Some in Hi. lia.
      * by apply lookup_app_l_Some.
      * by rewrite lookup_app_r, Nat.sub_diag by lia.
Qed.

(** The state of the [forEach] of [validate] after the records [values]:
    the titles seen, and which issues have been pushed. *)
Lemma validate_state values :
  let state := foldl validate_step (∅, []) values in
  (∀ t, t ∈ state.1 ↔ has_title values t)
  ∧ (∀ t, DuplicateTitle t ∈ state.2 ↔ ambiguous values t)
  ∧ (∀ t, TooBroad t ∈ state.2 ↔ has_title values t ∧ broad t).
Proof.
  induction values as [|v values (IHt & IHd & IHb)] using rev_ind; simpl.
  { split_and!; intros t.
    - split; [set_solver|]. intros (v & Hv & _). by apply elem_of_nil in Hv.
    - split; [by intros ?%elem_of_nil|].
      intros (i & j & a & b & _ & Ha & _). done.
    - split; [by intros ?%elem_of_nil|].
      intros [(v & Hv & _) _]. by apply elem_of_nil in Hv. }
  rewrite foldl_app. simpl.
  destruct (foldl validate_step (∅, []) values) as [titles issues].
  simpl in *.
  assert (Hhas : ∀ t, has_title (values ++ [v]) t
                      ↔ has_title values t ∨ title v = t).
  { intros t. unfold has_title. split.
    - intros (u & [Hu|Hu]%elem_of_app & Ht); [left; by exists u|].
      apply list_elem_of_singleton in Hu as ->. by right.
    - intros [(u & Hu & Ht)|Ht].
      + exists u. split; [|done]. apply elem_of_app. by left.
      + exists v. split; [|done]. apply elem_of_app. right. by left. }
  split_and!; intros t.
  - rewrite Hhas, elem_of_union, elem_of_singleton, IHt. (intuition (simplify_eq; eauto; try done)).
  - rewrite ambiguous_snoc, <-IHd, <-IHt.
    destruct (decide (title v ∈ titles)) as [Hin|Hout];
      case_bool_decide;
      rewrite ?elem_of_app, ?list_elem_of_singleton;
      (intuition (simplify_eq; eauto; try done)).
  - rewrite Hhas. pose proof (IHb t) as Hb. unfold broad in *.
    destruct (decide (title v ∈ titles)) as [Hin|Hout];
      case_bool_decide;
      rewrite ?elem_of_app, ?list_elem_of_singleton;
      (intuition (simplify_eq; eauto; try done)).
Qed.

Lemma validate_issues_reports disk :
  (∀ t, DuplicateTitle t ∈ validate_issues disk ↔ ambiguous disk t)
  ∧ (∀ t, TooBroad t ∈ validate_issues disk ↔ has_title disk t ∧ broad t)
  ∧ (validate_issues disk = []
     ↔ (∀ t, ¬ ambiguous disk t) ∧ (∀ t, has_title disk t → ¬ broad t)).
Proof.
  destruct (validate_state disk) as (_ & Hd & Hb).
  unfold validate_issues. split_and!; [done..|]. split.
  - intros Hnil. rewrite Hnil in Hd, Hb. split.
    + intros t Ht%Hd. by apply elem_of_nil in Ht.
    + intros t Ht Hbroad.
      assert (H : TooBroad t ∈ []) by (by apply Hb). by apply elem_of_nil in H.
  - intros [Hnd Hnb].
    destruct ((foldl validate_step (∅, []) disk).2) as [|issue issues];
      [done|].
    exfalso. destruct issue as [t|t].
    + apply (Hnd t), Hd. by left.
    + assert (H : has_title disk t ∧ broad t) by (apply Hb; by left).
      destruct H as [H1 H2]. by apply (Hnb t).
Qed.

(** X18. [validate] reports "Duplicate title: t" exactly for the titles
    that two different records carry, and "too broad" exactly for the
    titles of records that have fewer than three space-separated words; it
    prints "is valid" exactly when there is no such title. *)
Theorem validate_reports disk :
  (∀ t, DuplicateTitle t ∈ validate_issues disk ↔ ambiguous disk t)
  ∧ (∀ t, TooBroad t ∈ validate_issues disk ↔ has_title disk t ∧ broad t)
  ∧ (validate_issues disk = []
     ↔ (∀ t, ¬ ambiguous disk t) ∧ (∀ t, has_title disk t → ¬ broad t)).
Proof. exact (validate_issues_reports disk). Qed.

(** X19. In a store that [validate] finds valid, the title on each side
    of an acceptable response is carried by exactly one record, so
    [update-scores] cannot pick between records of the same title. *)
Theorem validated_store_unambiguous disk t r r' v v' :
  validate_issues disk = [] →
  disk !! r = Some v → disk !! r' = Some v' →
  title v = t → title v' = t →
  r = r'.
Proof.
  intros Hvalid Hv Hv' Ht Ht'.
  destruct (validate_issues_reports disk) as (_ & _ & Hiff).
  apply Hiff in Hvalid as [Hnd _].
  destruct (decide (r = r')) as [|Hne]; [done|].
  destruct (Hnd t). by exists r, r', v, v'.
Qed.

Lemma validated_store_unambiguous_witness :
  (validate_issues valid_disk = [] ∧
   valid_disk !! 0%nat = Some (sample_value "Daily Walking Habit" 1500 0) ∧
   valid_disk !! 0%nat = Some (sample_value "Daily Walking Habit" 1500 0) ∧
   title (sample_value "Daily Walking Habit" 1500 0)
   = js "Daily Walking Habit" ∧
   title (sample_value "Daily Walking Habit" 1500 0)
   = js "Daily Walking Habit") ∧
  0%nat = 0%nat.
Proof.
  assert (Hvalid : validate_issues valid_disk = [])
    by (vm_compute; reflexivity).
  split; [split_and!; [exact Hvalid|reflexivity..]|].
  exact (validated_store_unambiguous valid_disk (js "Daily Walking Habit")
           0 0 _ _ Hvalid eq_refl eq_refl eq_refl eq_refl).
Defined.

(** * Properties of [trim] and [loadTags] *)

Lemma trim_start_head s c :
  head (trim_start s) = Some c → is_white_space c = false.
Proof.
  induction s as [|d s IH]; simpl; [done|].
  destruct (is_white_space d) eqn:Hd; [done|].
  simpl. by intros ?; simplify_eq.
Qed.

Lemma trim_start_suffix s : ∃ p, s = p ++ trim_start s.
Proof.
  induction s as [|d s [p IH]]; simpl; [by exists []|].
  destruct (is_white_space d); [|by exists []].
  exists (d :: p). simpl. by rewrite <-IH.
Qed.

(** What [trim] returns neither starts nor ends with white space. *)
Lemma trim_ends s :
  trim s ≠ [] →
  ∃ c d, head (trim s) = Some c ∧ last (trim s) = Some d
         ∧ is_white_space c = false ∧ is_white_space d = false.
Proof.
  unfold trim. set (t := trim_start s). set (u := trim_start (reverse t)).
  intros Hne.
  assert (Hu : u ≠ []) by (intros Hu; by rewrite Hu in Hne).
  destruct u as [|d u'] eqn:Eu; [done|].
  assert (Hd : is_white_space d = false).
  { apply (trim_start_head (reverse t)). fold u. by rewrite Eu. }
  destruct (trim_start_suffix (reverse t)) as [p Hp]. fold u in Hp.
  rewrite Eu in Hp.
  assert (Hlast : last (d :: u') = head t).
  { rewrite <-last_reverse, Hp, last_app.
    destruct (last (d :: u')) eqn:E; [done|]. by apply last_None in E. }
  destruct t as [|c t'] eqn:Et.
  { rewrite reverse_nil in Hp. by destruct p. }
  exists c, d. split_and!.
  - by rewrite head_reverse, Hlast.
  - by rewrite last_reverse.
  - apply (trim_start_head s). fold t. by rewrite Et.
  - done.
Qed.

(** X20. Every tag that [loadTags] reads from the lattice file is a line
    of that file with the white space at both ends removed, is not empty,
    and neither starts nor ends with white space. *)
Theorem loadTags_clean content t :
  t ∈ loadTags (Some content) →
  (∃ line, line ∈ split newline content ∧ t = trim line)
  ∧ t ≠ []
  ∧ ∃ c d, head t = Some c ∧ last t = Some d
           ∧ is_white_space c = false ∧ is_white_space d = false.
Proof.
  unfold loadTags. intros [Hlen Ht]%list_elem_of_filter.
  apply list_elem_of_fmap in Ht as (line & -> & Hline).
  assert (Hne : trim line ≠ []).
  { intros Hnil. rewrite Hnil in Hlen. simpl in Hlen. lia. }
  split_and!; [by exists line|done|by apply trim_ends].
Qed.

Lemma loadTags_clean_witness :
  js "reason" ∈ loadTags (Some (js "life
 reason 

ethics")) ∧
  (∃ line, line ∈ split newline (js "life
 reason 

ethics") ∧ js "reason" = trim line)
  ∧ js "reason" ≠ []
  ∧ ∃ c d, head (js "reason") = Some c ∧ last (js "reason") = Some d
           ∧ is_white_space c = false ∧ is_white_space d = false.
Proof.
  assert (Hin : js "reason" ∈ loadTags (Some (js "life
 reason 

ethics"))).
  { assert (Hl : loadTags (Some (js "life
 reason 

ethics")) = [js "life"; js "reason"; js "ethics"])
      by (vm_compute; reflexivity).
    rewrite Hl. apply elem_of_cons. right. apply elem_of_cons. by left. }
  split; [exact Hin|].
  exact (loadTags_clean _ _ Hin).
Defined.

(** * Properties of [stats] *)

Lemma foldl_min_least x xs :
  foldl Z.min x xs ≤ x ∧ Forall (λ y, foldl Z.min x xs ≤ y) xs
  ∧ (foldl Z.min x xs = x ∨ foldl Z.min x xs ∈ xs).
Proof.
  revert x. induction xs as [|y xs IH]; intros x; simpl.
  { split_and!; [lia|constructor|by left]. }
  destruct (IH (Z.min x y)) as (Hle & Hall & Hin). split_and!.
  - lia.
  - constructor; [lia|done].
  - destruct Hin as [Hin|Hin]; [|right; by right].
    rewrite Hin. destruct (decide (x ≤ y)).
    + left. lia.
    + right. apply elem_of_cons. left. lia.
Qed.

(** [Math.min] over the counts is the least count over all records. *)
Lemma math_min_minimum_count values :
  math_min (comparisonCount <$> values) = minimum_count values.
Proof.
  destruct values as [|v values]; [done|].
  symmetry. apply minimum_count_unique; simpl;
    destruct (foldl_min_least (comparisonCount v) (comparisonCount <$> values))
      as (Hle & Hall & Hin).
  - destruct Hin as [Hin|Hin].
    + exists v. split; [by left|done].
    + apply list_elem_of_fmap in Hin as (u & Hu & Hin).
      exists u. split; [by right|done].
  - constructor; [done|].
    rewrite Forall_fmap in Hall. done.
Qed.

Lemma filter_fmap_comp {A B} (f : A → B) (P : B → Prop)
    `{∀ y, Decision (P y)} (l : list A) :
  filter P (f <$> l) = f <$> filter (λ x, P (f x)) l.
Proof.
  induction l as [|x l IH]; [done|]. csimpl.
  rewrite !filter_cons, IH. by case_decide.
Qed.

(** X21. The least-compared values that [stats] reports are exactly the
    records of the least-count cohort from which [pairs] draws its
    candidates first, in file order; [stats] reports none only for an
    empty file. *)
Theorem stats_least_compared disk m :
  minimum_count disk = Some m →
  leastCompared disk = (λ r, disk !!! r) <$> cohort disk m
  ∧ leastCompared disk = filter (λ v, comparisonCount v = m) disk
  ∧ leastCompared disk ≠ [].
Proof.
  intros Hm.
  assert (Hfilter : leastCompared disk
                    = filter (λ v, comparisonCount v = m) disk).
  { unfold leastCompared. rewrite math_min_minimum_count, Hm.
    apply list_filter_iff. intros v. split; [by intros ?; simplify_eq|].
    by intros ->. }
  split_and!; [|done|].
  - rewrite Hfilter. unfold cohort, count_of.
    transitivity (filter (λ v, comparisonCount v = m)
                    ((λ r, disk !!! r) <$> seq 0 (length disk))).
    + fold (writeValues disk (seq 0 (length disk))).
      by rewrite writeValues_all.
    + apply filter_fmap_comp.
  - rewrite Hfilter.
    apply minimum_count_least in Hm as [(v & Hv & Hcv) _].
    intros Hnil.
    assert (Hin : v ∈ filter (λ v, comparisonCount v = m) disk)
      by (by apply list_elem_of_filter).
    rewrite Hnil in Hin. by apply elem_of_nil in Hin.
Qed.

Lemma stats_least_compared_witness :
  minimum_count sample_disk = Some 0 ∧
  leastCompared sample_disk = (λ r, sample_disk !!! r) <$> cohort sample_disk 0
  ∧ leastCompared sample_disk
    = filter (λ v, comparisonCount v = 0) sample_disk
  ∧ leastCompared sample_disk ≠ [].
Proof.
  split; [reflexivity|].
  exact (stats_least_compared sample_disk 0 eq_refl).
Defined.

(** * A title added twice *)

(** X22. [add] accepts a title that a record already carries. From then
    on the title is ambiguous, [validate] reports it, and no response of
    [update-scores] ever resolves to the new record: comparisons under that
    title keep going to the older record. *)
Theorem added_duplicate_title disk new_id title tags desc now :
  has_title disk title →
  let disk' := add_action disk new_id title tags desc now in
  ambiguous disk' title
  ∧ DuplicateTitle title ∈ validate_issues disk'
  ∧ ∀ resp w l,
      resolve (seq 0 (length disk')) disk' resp = inr (w, l) →
      w ≠ length disk ∧ l ≠ length disk.
Proof.
  intros Hhas disk'. unfold disk'. rewrite add_action_app.
  set (new := newValue new_id title tags desc now).
  assert (Hamb : ambiguous (disk ++ [new]) title).
  { apply ambiguous_snoc. by right. }
  assert (Hnew : (disk ++ [new]) !! length disk = Some new).
  { by rewrite lookup_app_r, Nat.sub_diag by lia. }
  destruct Hhas as (old & [i Hi]%list_elem_of_lookup & Hold).
  assert (Hfirst : ∀ t r, find_title (seq 0 (length (disk ++ [new])))
                            (disk ++ [new]) t = Some r → r ≠ length disk).
  { intros t r Hfind ->.
    assert (Hhas' : has_title (disk ++ [new]) t).
    { eapply find_title_has_title; [done|].
      rewrite length_app. simpl. lia. }
    destruct (find_title_first _ _ Hhas') as (r' & Hfind' & Hmin).
    rewrite Hfind in Hfind'. injection Hfind' as <-.
    destruct Hmin as [(v & Hv & Ht) Hmin]. rewrite Hnew in Hv.
    injection Hv as <-. simpl in Ht.
    assert (Hle : (length disk ≤ i)%nat).
    { apply (Hmin i old); [by apply lookup_app_l_Some|congruence]. }
    apply lookup_lt_Some in Hi. lia. }
  split_and!; [done|by apply validate_issues_reports|].
  intros resp w l Hres. unfold resolve in Hres.
  destruct (split greater_than resp !! 0%nat) as [winner|]; [|done].
  destruct (split greater_than resp !! 1%nat) as [loser|]; [|done].
  case_bool_decide; [done|].
  destruct (find_title _ _ (trim winner)) as [w'|] eqn:Hw; [|done].
  destruct (find_title _ _ (trim loser)) as [l'|] eqn:Hl; [|done].
  simplify_eq. eauto.
Qed.

Lemma added_duplicate_title_witness :
  has_title sample_two (js "Life") ∧
  let disk' := add_action sample_two (js "20260101-life") (js "Life")
                 None None sample_now in
  ambiguous disk' (js "Life")
  ∧ DuplicateTitle (js "Life") ∈ validate_issues disk'
  ∧ ∀ resp w l,
      resolve (seq 0 (length disk')) disk' resp = inr (w, l) →
      w ≠ length sample_two ∧ l ≠ length sample_two.
Proof.
  assert (Hhas : has_title sample_two (js "Life")).
  { exists (sample_value "Life" 1520 4).
    split; [apply elem_of_cons; by left|reflexivity]. }
  split; [exact Hhas|].
  exact (added_duplicate_title sample_two (js "20260101-life") (js "Life")
           None None sample_now Hhas).
Defined.

(** * White space around the titles of a response *)

Lemma trim_start_id s :
  (∀ c, head s = Some c → is_white_space c = false) → trim_start s = s.
Proof.
  destruct s as [|c s]; [done|]. intros Hc. simpl.
  by rewrite (Hc c eq_refl).
Qed.

Lemma trim_idempotent s : trim (trim s) = trim s.
Proof.
  destruct (decide (trim s = [])) as [->|Hne]; [done|].
  destruct (trim_ends s Hne) as (c & d & Hc & Hd & Hwc & Hwd).
  unfold trim at 1.
  rewrite (trim_start_id (trim s)) by (intros ? ?; by simplify_eq).
  rewrite trim_start_id, reverse_involutive; [done|].
  intros ? Hh. rewrite head_reverse in Hh. by simplify_eq.
Qed.

Lemma trim_start_subseteq s : trim_start s ⊆ s.
Proof.
  destruct (trim_start_suffix s) as [p Hp]. intros c Hc.
  rewrite Hp. apply elem_of_app. by right.
Qed.

Lemma trim_subseteq s : trim s ⊆ s.
Proof.
  intros c Hc. unfold trim in Hc.
  rewrite elem_of_reverse in Hc.
  pose proof (trim_start_subseteq _ _ Hc) as Hc'.
  rewrite elem_of_reverse in Hc'.
  exact (trim_start_subseteq _ _ Hc').
Qed.

Lemma split_no_sep sep s : sep ∉ s → split sep s = [s].
Proof.
  induction s as [|c s IH]; intros Hs; simpl; [done|].
  apply not_elem_of_cons in Hs as [Hc Hs].
  rewrite bool_decide_eq_false_2 by done. by rewrite IH.
Qed.

Lemma split_app_sep sep a b :
  sep ∉ a → split sep (a ++ sep :: b) = a :: split sep b.
Proof.
  induction a as [|c a IH]; intros Ha; simpl.
  { by rewrite bool_decide_eq_true_2. }
  apply not_elem_of_cons in Ha as [Hc Ha].
  rewrite bool_decide_eq_false_2 by done. by rewrite IH.
Qed.

Lemma resolve_two_sides values heap w l :
  greater_than ∉ w → greater_than ∉ l → w ≠ [] → l ≠ [] →
  resolve values heap (w ++ greater_than :: l)
  = match find_title values heap (trim w), find_title values heap (trim l) with
    | Some winValue, Some loseValue => inr (winValue, loseValue)
    | _, _ => inl (UnknownValue w l)
    end.
Proof.
  intros Hw Hl Hwne Hlne. unfold resolve.
  rewrite split_app_sep, split_no_sep by done. simpl.
  by rewrite bool_decide_eq_false_2 by (intros [?|?]; done).
Qed.

(** X23. White space around the titles of a response does not matter: a
    response "winner>loser" whose sides are not blank has the same effect
    as the response made of the trimmed sides. *)
Theorem response_whitespace_ignored now values heap w l heap' :
  greater_than ∉ w → greater_than ∉ l → trim w ≠ [] → trim l ≠ [] →
  apply_response now values heap (w ++ greater_than :: l) = inr heap'
  ↔ apply_response now values heap (trim w ++ greater_than :: trim l)
    = inr heap'.
Proof.
  intros Hw Hl Htw Htl.
  assert (Hwne : w ≠ []) by (by intros ->).
  assert (Hlne : l ≠ []) by (by intros ->).
  unfold apply_response.
  rewrite !resolve_two_sides, !trim_idempotent; try done;
    try (intros H%trim_subseteq; done).
  by destruct (find_title values heap (trim w)),
    (find_title values heap (trim l)).
Qed.

Lemma response_whitespace_ignored_witness :
  ((greater_than ∉ js " Life ") ∧ (greater_than ∉ js " Health") ∧
   trim (js " Life ") ≠ [] ∧ trim (js " Health") ≠ []) ∧
  (apply_response sample_now (seq 0 5) sample_disk
     (js " Life " ++ greater_than :: js " Health")
   = inr (adjust sample_now 0 1 sample_disk)
   ↔ apply_response sample_now (seq 0 5) sample_disk
       (trim (js " Life ") ++ greater_than :: trim (js " Health"))
     = inr (adjust sample_now 0 1 sample_disk)).
Proof.
  assert (H1 : greater_than ∉ js " Life ").
  { intros H. vm_compute in H.
    repeat (apply elem_of_cons in H as [H|H]; [discriminate H|]).
    by apply elem_of_nil in H. }
  assert (H2 : greater_than ∉ js " Health").
  { intros H. vm_compute in H.
    repeat (apply elem_of_cons in H as [H|H]; [discriminate H|]).
    by apply elem_of_nil in H. }
  assert (H3 : trim (js " Life ") ≠ []) by (vm_compute; discriminate).
  assert (H4 : trim (js " Health") ≠ []) by (vm_compute; discriminate).
  split; [by split_and!|].
  exact (response_whitespace_ignored sample_now (seq 0 5) sample_disk
           (js " Life ") (js " Health") _ H1 H2 H3 H4).
Defined.
